(** * The Fernet token scheme of [cryptography/fernet.py]

    A shallow embedding of [Fernet] and [MultiFernet]: tokens and keys are
    byte lists, Python integers are [Z], exceptions are an explicit result
    type, and the two non-deterministic inputs ([os.urandom(16)] and
    [int(time.time())]) are explicit arguments. *)

From Stdlib Require Import ZArith List Bool Lia.
From Stdlib Require Init.Byte Strings.Byte.
From coqutil Require Import Byte Word.LittleEndianList.
Import ListNotations.
Local Open Scope Z_scope.

(** ** Bytes *)

Definition bytes : Type := list byte.

Fixpoint bytes_eqb (a b : bytes) : bool :=
  match a, b with
  | [], [] => true
  | x :: a', y :: b' => Byte.eqb x y && bytes_eqb a' b'
  | _, _ => false
  end.

Definition len {A} (l : list A) : Z := Z.of_nat (length l).

(** ** Python slices [l[lo:hi]]

    A bound that is left out is [None]; a negative bound counts from the
    end; every bound is clamped to [0 .. len l]. *)

Definition clamp_index (n i : Z) : nat :=
  if i <? 0 then Z.to_nat (Z.max 0 (n + i)) else Z.to_nat (Z.min i n).

Definition slice {A} (l : list A) (lo hi : option Z) : list A :=
  let n := len l in
  let a := match lo with None => 0%nat | Some i => clamp_index n i end in
  let b := match hi with None => length l | Some j => clamp_index n j end in
  firstn (b - a) (skipn a l).

(** ** Exceptions

    The exception classes [fernet.py] raises, catches or lets through.
    [binascii.Error] is a subclass of [ValueError]. *)

Inductive exn : Type :=
| InvalidToken
| InvalidSignature
| ValueError
| binascii_Error
| struct_error
| TypeError
| IndexError.

Definition exn_eqb (a b : exn) : bool :=
  match a, b with
  | InvalidToken, InvalidToken
  | InvalidSignature, InvalidSignature
  | ValueError, ValueError
  | binascii_Error, binascii_Error
  | struct_error, struct_error
  | TypeError, TypeError
  | IndexError, IndexError => true
  | _, _ => false
  end.

(** [isinstance e cls]: an exception of class [e] is caught by [except cls]. *)
Definition isinstance (e cls : exn) : bool :=
  exn_eqb e cls ||
  match e, cls with
  | binascii_Error, ValueError => true
  | _, _ => false
  end.

Inductive result (A : Type) : Type :=
| Ok (a : A)
| Raise (e : exn).
Arguments Ok {A} a.
Arguments Raise {A} e.

Definition bind {A B} (m : result A) (k : A -> result B) : result B :=
  match m with
  | Ok a => k a
  | Raise e => Raise e
  end.

Notation "x <- m ;; k" := (bind m (fun x => k))
  (at level 61, m at next level, right associativity).
Notation "m ;;; k" := (bind m (fun _ => k))
  (at level 61, right associativity).

(** [try: m  except cls: raise e'] *)
Definition try_except {A} (m : result A) (cls : list exn) (e' : exn)
  : result A :=
  match m with
  | Ok a => Ok a
  | Raise e => if existsb (isinstance e) cls then Raise e' else Raise e
  end.

(** ** [struct.pack(">Q", n)] and [struct.unpack(">Q", b)]

    An unsigned 64-bit integer as 8 bytes, most significant first.  [pack]
    raises [struct.error] outside [0 .. 2^64-1], [unpack] unless the buffer
    holds exactly 8 bytes. *)

Definition be_split (n : nat) (z : Z) : bytes := rev (le_split n z).
Definition be_combine (b : bytes) : Z := le_combine (rev b).

Definition pack_Q (n : Z) : result bytes :=
  if (0 <=? n) && (n <? 2 ^ 64) then Ok (be_split 8 n) else Raise struct_error.

Definition unpack_Q (b : bytes) : result Z :=
  if (length b =? 8)%nat then Ok (be_combine b) else Raise struct_error.

(** ** Padding *)

(** [algorithms.AES.block_size // 8] *)
Definition block_size : nat := 16.

(** Modelled from the spec: the padder of [padding.PKCS7(128)], defined in
    [cryptography/hazmat/primitives/padding.py], which is not among the
    sources.  The spec's words: reversible block padding to a multiple of 16
    bytes, "standard byte-padding where the pad value encodes the pad
    length", and "padding always adds at least one block". *)
Definition PKCS7_pad (data : bytes) : bytes :=
  let n := (block_size - length data mod block_size)%nat in
  data ++ repeat (byte.of_Z (Z.of_nat n)) n.

(** Modelled from the spec: the unpadder of [padding.PKCS7(128)], from the
    same missing file.  The spec's words: [unpad(bytes, blockSize) -> bytes |
    fails], exactly reversing the padding; "any cipher-alignment error or
    invalid padding pattern fails". *)
Definition PKCS7_unpad (padded : bytes) : result bytes :=
  if (length padded =? 0)%nat || negb (length padded mod block_size =? 0)%nat
  then Raise ValueError
  else
    let n := Z.to_nat (byte.unsigned (last padded Byte.x00)) in
    if (n =? 0)%nat || (block_size <? n)%nat then Raise ValueError
    else
      let body := firstn (length padded - n) padded in
      let tail := skipn (length padded - n) padded in
      if forallb (Byte.eqb (last padded Byte.x00)) tail
      then Ok body else Raise ValueError.

(** ** The primitive provider *)

(** Modelled from the spec: the operations the backend (OpenSSL) and the
    standard library supply to [fernet.py], the "collaborator interface
    consumed" of the spec: base64url coding, the keyed hash
    [HMAC(key, SHA256)] and AES in CBC mode on block-aligned data.
    [b64decode] is [None] where [base64.urlsafe_b64decode] raises
    [binascii.Error]. *)
Class Provider : Type := {
  b64encode : bytes -> bytes;
  b64decode : bytes -> option bytes;
  hmac_sha256 : bytes -> bytes -> bytes;
  cbc_encrypt : bytes -> bytes -> bytes -> bytes;
  cbc_decrypt : bytes -> bytes -> bytes -> bytes
}.

(** Modelled from the spec: what it and the primitives' own documentation
    promise of the provider: base64 decoding inverts encoding, the tag has
    32 bytes, CBC keeps the length of its data, and decryption inverts
    encryption of block-aligned data under the same 128-bit key and IV. *)
Class ProviderLaws (P : Provider) : Prop := {
  b64decode_b64encode : forall d, b64decode (b64encode d) = Some d;
  hmac_sha256_length : forall k m, length (hmac_sha256 k m) = 32%nat;
  cbc_encrypt_length : forall k iv d,
    length k = 16%nat -> length iv = 16%nat ->
    (length d mod block_size = 0)%nat ->
    length (cbc_encrypt k iv d) = length d;
  cbc_decrypt_length : forall k iv d,
    length k = 16%nat -> length iv = 16%nat ->
    (length d mod block_size = 0)%nat ->
    length (cbc_decrypt k iv d) = length d;
  cbc_decrypt_encrypt : forall k iv d,
    length k = 16%nat -> length iv = 16%nat ->
    (length d mod block_size = 0)%nat ->
    cbc_decrypt k iv (cbc_encrypt k iv d) = d
}.

Section Fernet.
Context {P : Provider}.

(** [base64.urlsafe_b64decode(s)] *)
Definition urlsafe_b64decode (s : bytes) : result bytes :=
  match b64decode s with
  | Some d => Ok d
  | None => Raise binascii_Error
  end.

(** Modelled from the spec: [Cipher(algorithms.AES(key), modes.CBC(iv),
    backend)], whose classes are not among the sources; "block-cipher
    CBC-mode encrypt/decrypt under a 128-bit key and IV".  AES takes a key of
    128, 192 or 256 bits and CBC an IV of one block, else [ValueError]. *)
Definition Cipher_AES_CBC (key iv : bytes) : result (bytes * bytes) :=
  if negb ((length key =? 16) || (length key =? 24) || (length key =? 32))%nat
  then Raise ValueError
  else if negb (length iv =? block_size)%nat then Raise ValueError
  else Ok (key, iv).

(** Modelled from the spec: [encryptor.update(data)] and
    [encryptor.finalize()] (and the decryptor's), [cbcEncrypt(key,iv,data) ->
    bytes] and [cbcDecrypt(key,iv,data) -> bytes | fails]: [update] hands out
    the whole blocks and [finalize] raises [ValueError] when the data was not
    a multiple of the block length. *)
Definition encryptor_update (c : bytes * bytes) (data : bytes) : bytes :=
  let full := (length data / block_size * block_size)%nat in
  cbc_encrypt (fst c) (snd c) (firstn full data).

(** Modelled from the spec: [encryptor.finalize()], see [encryptor_update]. *)
Definition encryptor_finalize (c : bytes * bytes) (data : bytes)
  : result bytes :=
  if (length data mod block_size =? 0)%nat then Ok [] else Raise ValueError.

(** Modelled from the spec: [decryptor.update(data)], see
    [encryptor_update]. *)
Definition decryptor_update (c : bytes * bytes) (data : bytes) : bytes :=
  let full := (length data / block_size * block_size)%nat in
  cbc_decrypt (fst c) (snd c) (firstn full data).

(** Modelled from the spec: [decryptor.finalize()], see [encryptor_update]. *)
Definition decryptor_finalize (c : bytes * bytes) (data : bytes)
  : result bytes :=
  if (length data mod block_size =? 0)%nat then Ok [] else Raise ValueError.

(** [HMAC(key, hashes.SHA256()).update(msg).verify(signature)] *)
Definition HMAC_verify (key msg signature : bytes) : result unit :=
  if bytes_eqb (hmac_sha256 key msg) signature then Ok tt
  else Raise InvalidSignature.

Definition _MAX_CLOCK_SKEW : Z := 60.

Record Fernet : Type := {
  _signing_key : bytes;
  _encryption_key : bytes
}.

(** [Fernet.__init__(key)] *)
Definition Fernet_init (key : bytes) : result Fernet :=
  key <- urlsafe_b64decode key ;;
  if negb (length key =? 32)%nat then Raise ValueError
  else Ok {| _signing_key := slice key None (Some 16);
             _encryption_key := slice key (Some 16) None |}.

(** [Fernet.generate_key()]; [urandom32] is the value of [os.urandom(32)]. *)
Definition generate_key (urandom32 : bytes) : bytes := b64encode urandom32.

(** [Fernet._encrypt_from_parts(data, current_time, iv)] *)
Definition _encrypt_from_parts (self : Fernet) (data : bytes)
  (current_time : Z) (iv : bytes) : result bytes :=
  let padded_data := PKCS7_pad data in
  encryptor <- Cipher_AES_CBC (_encryption_key self) iv ;;
  let updated := encryptor_update encryptor padded_data in
  finalized <- encryptor_finalize encryptor padded_data ;;
  let ciphertext := updated ++ finalized in
  ts <- pack_Q current_time ;;
  let basic_parts := [Byte.x80] ++ ts ++ iv ++ ciphertext in
  let hmac := hmac_sha256 (_signing_key self) basic_parts in
  Ok (b64encode (basic_parts ++ hmac)).

(** [Fernet.encrypt_at_time(data, current_time)]; [urandom16] is the value
    of [os.urandom(16)]. *)
Definition encrypt_at_time (self : Fernet) (data : bytes) (current_time : Z)
  (urandom16 : bytes) : result bytes :=
  let iv := urandom16 in
  _encrypt_from_parts self data current_time iv.

(** [Fernet.encrypt(data)]; [now] is [int(time.time())]. *)
Definition encrypt (self : Fernet) (data : bytes) (now : Z)
  (urandom16 : bytes) : result bytes :=
  encrypt_at_time self data now urandom16.

(** [Fernet._get_unverified_token_data(token)] *)
Definition _get_unverified_token_data (token : bytes) : result (Z * bytes) :=
  data <- try_except (urlsafe_b64decode token) [TypeError; binascii_Error]
            InvalidToken ;;
  match data with
  | [] => Raise InvalidToken
  | b0 :: _ =>
      if negb (Byte.eqb b0 Byte.x80) then Raise InvalidToken
      else
        timestamp <- try_except (unpack_Q (slice data (Some 1) (Some 9)))
                       [struct_error] InvalidToken ;;
        Ok (timestamp, data)
  end.

(** [Fernet._verify_signature(data)] *)
Definition _verify_signature (self : Fernet) (data : bytes) : result unit :=
  try_except
    (HMAC_verify (_signing_key self) (slice data None (Some (-32)))
       (slice data (Some (-32)) None))
    [InvalidSignature] InvalidToken.

(** [Fernet._decrypt_data(data, timestamp, time_info)] *)
Definition _decrypt_data (self : Fernet) (data : bytes) (timestamp : Z)
  (time_info : option (Z * Z)) : result bytes :=
  match time_info with
   | Some (ttl, current_time) =>
       if timestamp + ttl <? current_time then Raise InvalidToken
       else if current_time + _MAX_CLOCK_SKEW <? timestamp
            then Raise InvalidToken
            else Ok tt
   | None => Ok tt
   end ;;;
  _verify_signature self data ;;;
  let iv := slice data (Some 9) (Some 25) in
  let ciphertext := slice data (Some 25) (Some (-32)) in
  decryptor <- Cipher_AES_CBC (_encryption_key self) iv ;;
  let plaintext_padded := decryptor_update decryptor ciphertext in
  finalized <- try_except (decryptor_finalize decryptor ciphertext)
                 [ValueError] InvalidToken ;;
  let plaintext_padded := plaintext_padded ++ finalized in
  try_except (PKCS7_unpad plaintext_padded) [ValueError] InvalidToken.

(** [Fernet.decrypt(token, ttl=None)]; [now] is [int(time.time())]. *)
Definition decrypt (self : Fernet) (token : bytes) (ttl : option Z) (now : Z)
  : result bytes :=
  td <- _get_unverified_token_data token ;;
  let time_info := match ttl with
                   | None => None
                   | Some ttl => Some (ttl, now)
                   end in
  _decrypt_data self (snd td) (fst td) time_info.

(** [Fernet.decrypt_at_time(token, ttl, current_time)] *)
Definition decrypt_at_time (self : Fernet) (token : bytes) (ttl : option Z)
  (current_time : Z) : result bytes :=
  match ttl with
  | None => Raise ValueError
  | Some ttl =>
      td <- _get_unverified_token_data token ;;
      _decrypt_data self (snd td) (fst td) (Some (ttl, current_time))
  end.

(** [Fernet.extract_timestamp(token)] *)
Definition extract_timestamp (self : Fernet) (token : bytes) : result Z :=
  td <- _get_unverified_token_data token ;;
  _verify_signature self (snd td) ;;;
  Ok (fst td).

(** ** [MultiFernet] *)

Record MultiFernet : Type := { _fernets : list Fernet }.

Definition MultiFernet_init (fernets : list Fernet) : result MultiFernet :=
  match fernets with
  | [] => Raise ValueError
  | _ => Ok {| _fernets := fernets |}
  end.

(** [self._fernets[0]] *)
Definition fernets_0 (self : MultiFernet) : result Fernet :=
  match _fernets self with
  | f :: _ => Ok f
  | [] => Raise IndexError
  end.

(** [MultiFernet.encrypt_at_time(msg, current_time)] *)
Definition Multi_encrypt_at_time (self : MultiFernet) (msg : bytes)
  (current_time : Z) (urandom16 : bytes) : result bytes :=
  f0 <- fernets_0 self ;;
  encrypt_at_time f0 msg current_time urandom16.

(** [MultiFernet.encrypt(msg)] *)
Definition Multi_encrypt (self : MultiFernet) (msg : bytes) (now : Z)
  (urandom16 : bytes) : result bytes :=
  Multi_encrypt_at_time self msg now urandom16.

(** The [for f in self._fernets: try: ... except InvalidToken: pass] loops:
    [attempt i f] is the body of the [try], run on the engine [f] as the
    [i]-th attempt.  The first attempt that does not raise [InvalidToken]
    ends the loop (with its value, or with the other exception it raised);
    past the last engine the loop raises [InvalidToken]. *)
Fixpoint first_success {A} (attempt : nat -> Fernet -> result A) (i : nat)
  (fernets : list Fernet) : result A :=
  match fernets with
  | [] => Raise InvalidToken
  | f :: rest =>
      match attempt i f with
      | Ok a => Ok a
      | Raise e =>
          if isinstance e InvalidToken
          then first_success attempt (S i) rest
          else Raise e
      end
  end.

(** [MultiFernet.rotate(msg)] *)
Definition rotate (self : MultiFernet) (msg : bytes) (urandom16 : bytes)
  : result bytes :=
  td <- _get_unverified_token_data msg ;;
  p <- first_success (fun _ f => _decrypt_data f (snd td) (fst td) None) 0
         (_fernets self) ;;
  let iv := urandom16 in
  f0 <- fernets_0 self ;;
  _encrypt_from_parts f0 p (fst td) iv.

(** [MultiFernet.decrypt(msg, ttl=None)]; every [f.decrypt(msg, ttl)] reads
    the clock itself: [clock i] is [int(time.time())] in the [i]-th
    attempt. *)
Definition Multi_decrypt (self : MultiFernet) (msg : bytes) (ttl : option Z)
  (clock : nat -> Z) : result bytes :=
  first_success (fun i f => decrypt f msg ttl (clock i)) 0 (_fernets self).

(** [MultiFernet.decrypt_at_time(msg, ttl, current_time)] *)
Definition Multi_decrypt_at_time (self : MultiFernet) (msg : bytes)
  (ttl : option Z) (current_time : Z) : result bytes :=
  first_success (fun _ f => decrypt_at_time f msg ttl current_time) 0
    (_fernets self).

End Fernet.

(** ** Predicates of the statements *)

Section Predicates.
Context {P : Provider}.

(** The bytes a token decodes to: the signed prefix and its tag. *)
Definition signed_prefix (ts iv ciphertext : bytes) : bytes :=
  [Byte.x80] ++ ts ++ iv ++ ciphertext.

(** The bytes of the token [_encrypt_from_parts] builds. *)
Definition token_data (self : Fernet) (data : bytes) (current_time : Z)
  (iv : bytes) : bytes :=
  let basic_parts :=
    signed_prefix (be_split 8 current_time) iv
      (cbc_encrypt (_encryption_key self) iv (PKCS7_pad data)) in
  basic_parts ++ hmac_sha256 (_signing_key self) basic_parts.

(** A tag that verifies: the trailing 32 bytes are the MAC of the rest. *)
Definition tag_ok (self : Fernet) (data : bytes) : Prop :=
  slice data (Some (-32)) None
  = hmac_sha256 (_signing_key self) (slice data None (Some (-32))).

(** An engine as [Fernet.__init__] builds it: two 128-bit keys. *)
Definition engine_ok (self : Fernet) : Prop :=
  length (_signing_key self) = 16%nat /\
  length (_encryption_key self) = 16%nat.

(** The IV and ciphertext fields as [_decrypt_data] cuts them out. *)
Definition iv_field (data : bytes) : bytes := slice data (Some 9) (Some 25).
Definition ciphertext_field (data : bytes) : bytes :=
  slice data (Some 25) (Some (-32)).

(** What [_decrypt_data] computes once the time and tag checks are passed. *)
Definition decrypt_body (self : Fernet) (data : bytes) : result bytes :=
  let iv := slice data (Some 9) (Some 25) in
  let ciphertext := slice data (Some 25) (Some (-32)) in
  if (length ciphertext mod block_size =? 0)%nat
  then try_except
         (PKCS7_unpad (cbc_decrypt (_encryption_key self) iv ciphertext))
         [ValueError] InvalidToken
  else Raise InvalidToken.

(** The two time checks of [_decrypt_data]: neither expired nor stamped more
    than [_MAX_CLOCK_SKEW] seconds ahead; no check without a ttl. *)
Definition time_ok (timestamp : Z) (time_info : option (Z * Z)) : bool :=
  match time_info with
  | None => true
  | Some (ttl, current_time) =>
      negb (timestamp + ttl <? current_time)
      && negb (current_time + _MAX_CLOCK_SKEW <? timestamp)
  end.

(** The engines of a ring, each built by [Fernet.__init__] from its key. *)
Definition built_from (keys : list bytes) (fernets : list Fernet) : Prop :=
  Forall2 (fun k f => Fernet_init k = Ok f) keys fernets.

End Predicates.

(** * A reference provider

    A provider to run the engine on: base64url as the standard library codes
    it ([binascii.b2a_base64], and [binascii.a2b_base64] in its default
    mode, which skips the characters outside the alphabet), CBC mode over a
    16-byte block cipher that adds the key with xor, and a keyed 256-bit
    checksum in the place of HMAC-SHA256. *)

Definition BASE64_PAD : byte := Byte.x3d.

Definition table_b2a_base64 : bytes :=
  map (fun n => byte.of_Z (Z.of_nat n))
    (seq 65 26 ++ seq 97 26 ++ seq 48 10 ++ [45; 95])%nat.

Definition b2a_char (v : Z) : byte := nth (Z.to_nat v) table_b2a_base64 Byte.x00.

Fixpoint index_of (c : byte) (table : bytes) (i : Z) : option Z :=
  match table with
  | [] => None
  | t :: table' => if Byte.eqb c t then Some i else index_of c table' (i + 1)
  end.

Definition a2b_char (c : byte) : option Z :=
  if Byte.eqb c Byte.x2b then Some 62
  else if Byte.eqb c Byte.x2f then Some 63
  else index_of c table_b2a_base64 0.

Fixpoint b2a_base64 (d : bytes) : bytes :=
  match d with
  | [] => []
  | [x] =>
      let x := byte.unsigned x in
      [b2a_char (Z.shiftr x 2); b2a_char (Z.shiftl (Z.land x 3) 4);
       BASE64_PAD; BASE64_PAD]
  | [x; y] =>
      let x := byte.unsigned x in
      let y := byte.unsigned y in
      [b2a_char (Z.shiftr x 2);
       b2a_char (Z.lor (Z.shiftl (Z.land x 3) 4) (Z.shiftr y 4));
       b2a_char (Z.shiftl (Z.land y 15) 2); BASE64_PAD]
  | x :: y :: z :: rest =>
      let x := byte.unsigned x in
      let y := byte.unsigned y in
      let z := byte.unsigned z in
      b2a_char (Z.shiftr x 2)
      :: b2a_char (Z.lor (Z.shiftl (Z.land x 3) 4) (Z.shiftr y 4))
      :: b2a_char (Z.lor (Z.shiftl (Z.land y 15) 2) (Z.shiftr z 6))
      :: b2a_char (Z.land z 63)
      :: b2a_base64 rest
  end.

Definition emit (b : Z) (r : option bytes) : option bytes :=
  option_map (cons (byte.of_Z b)) r.

Fixpoint a2b_base64 (s : bytes) (quad_pos leftchar pads : Z) : option bytes :=
  match s with
  | [] => if quad_pos =? 0 then Some [] else None
  | c :: s' =>
      if Byte.eqb c BASE64_PAD then
        if (2 <=? quad_pos) && (4 <=? quad_pos + (pads + 1)) then Some []
        else a2b_base64 s' quad_pos leftchar
               (if 2 <=? quad_pos then pads + 1 else pads)
      else
        match a2b_char c with
        | None => a2b_base64 s' quad_pos leftchar pads
        | Some v =>
            if quad_pos =? 0 then a2b_base64 s' 1 v 0
            else if quad_pos =? 1 then
              emit (Z.lor (Z.shiftl leftchar 2) (Z.shiftr v 4))
                (a2b_base64 s' 2 (Z.land v 15) 0)
            else if quad_pos =? 2 then
              emit (Z.lor (Z.shiftl leftchar 4) (Z.shiftr v 2))
                (a2b_base64 s' 3 (Z.land v 3) 0)
            else
              emit (Z.lor (Z.shiftl leftchar 6) v) (a2b_base64 s' 0 0 0)
        end
  end.

Definition ref_b64encode (d : bytes) : bytes := b2a_base64 d.
Definition ref_b64decode (s : bytes) : option bytes := a2b_base64 s 0 0 0.


Definition all_bytes : bytes := map (fun n => byte.of_Z (Z.of_nat n)) (seq 0 256).

Definition sextet (v : Z) : bool := (0 <=? v) && (v <? 64).

(** The sextets of a group of three bytes, and the bytes of four sextets,
    as [b2a_base64] and [a2b_base64] compute them. *)
Definition s0 (x : byte) : Z := Z.shiftr (byte.unsigned x) 2.
Definition s1 (x y : byte) : Z :=
  Z.lor (Z.shiftl (Z.land (byte.unsigned x) 3) 4) (Z.shiftr (byte.unsigned y) 4).
Definition s2 (y z : byte) : Z :=
  Z.lor (Z.shiftl (Z.land (byte.unsigned y) 15) 2) (Z.shiftr (byte.unsigned z) 6).
Definition s3 (z : byte) : Z := Z.land (byte.unsigned z) 63.

(** A keyed 256-bit checksum in the place of HMAC-SHA256. *)
Definition ref_hmac (key msg : bytes) : bytes :=
  be_split 32
    (fold_left (fun acc b => (acc * 257 + byte.unsigned b + 1) mod 2 ^ 256)
       (key ++ msg) (Z.of_nat (length key))).

(** CBC mode over a 16-byte block cipher that adds the key with xor. *)
Definition xor_bytes (a b : bytes) : bytes :=
  map (fun p => byte.xor (fst p) (snd p)) (combine a b).

Definition ref_block_encrypt (key block : bytes) : bytes := xor_bytes block key.
Definition ref_block_decrypt (key block : bytes) : bytes := xor_bytes block key.

Fixpoint cbc_encrypt_blocks (n : nat) (key prev data : bytes) : bytes :=
  match n with
  | O => []
  | S n' =>
      let c := ref_block_encrypt key (xor_bytes (firstn block_size data) prev) in
      c ++ cbc_encrypt_blocks n' key c (skipn block_size data)
  end.

Fixpoint cbc_decrypt_blocks (n : nat) (key prev data : bytes) : bytes :=
  match n with
  | O => []
  | S n' =>
      let c := firstn block_size data in
      xor_bytes (ref_block_decrypt key c) prev
      ++ cbc_decrypt_blocks n' key c (skipn block_size data)
  end.

Definition ref_cbc_encrypt (key iv data : bytes) : bytes :=
  cbc_encrypt_blocks (length data / block_size) key iv data.

Definition ref_cbc_decrypt (key iv data : bytes) : bytes :=
  cbc_decrypt_blocks (length data / block_size) key iv data.

#[export] Instance ref_provider : Provider := {|
  b64encode := ref_b64encode;
  b64decode := ref_b64decode;
  hmac_sha256 := ref_hmac;
  cbc_encrypt := ref_cbc_encrypt;
  cbc_decrypt := ref_cbc_decrypt
|}.

(** The spec's concrete scenario on the reference provider: a master key, the
    engine built from it, an IV and the payload [b"hello"]. *)
Definition ref_master_key : bytes :=
  map (fun n => byte.of_Z (Z.of_nat n)) (seq 0 32).

Definition ref_key : bytes := ref_b64encode ref_master_key.

Definition ref_engine : Fernet :=
  {| _signing_key := firstn 16 ref_master_key;
     _encryption_key := skipn 16 ref_master_key |}.

Definition ref_iv : bytes :=
  map (fun n => byte.of_Z (Z.of_nat n)) (seq 100 16).

Definition hello : bytes := [Byte.x68; Byte.x65; Byte.x6c; Byte.x6c; Byte.x6f].

(** The scenario's token, [encrypt_at_time(b"hello", 1000)], and the same
    token with the last byte of its tag changed. *)
Definition ref_token : bytes :=
  ref_b64encode (token_data ref_engine hello 1000 ref_iv).

Definition tampered_data : bytes :=
  removelast (token_data ref_engine hello 1000 ref_iv) ++ [Byte.x00].

Definition tampered_token : bytes := ref_b64encode tampered_data.

(** A 41-byte token: version, timestamp and a tag that verifies, with no IV
    and no ciphertext. *)
Definition short_data : bytes :=
  let prefix := [Byte.x80] ++ be_split 8 1000 in
  prefix ++ ref_hmac (_signing_key ref_engine) prefix.

Definition short_token : bytes := ref_b64encode short_data.

(** A second master key and its engine, for key rings. *)
Definition new_master_key : bytes :=
  map (fun n => byte.of_Z (Z.of_nat n)) (seq 200 32).

Definition new_key : bytes := ref_b64encode new_master_key.

Definition new_engine : Fernet :=
  {| _signing_key := firstn 16 new_master_key;
     _encryption_key := skipn 16 new_master_key |}.

Definition ref_ring : MultiFernet := {| _fernets := [new_engine; ref_engine] |}.

(** Two tokens whose tag verifies: one with a ciphertext of a single byte,
    one whose ciphertext decrypts to sixteen zero bytes, which is no valid
    padding. *)
Definition sign_and_encode (ts iv ct : bytes) : bytes :=
  let prefix := signed_prefix ts iv ct in
  ref_b64encode (prefix ++ ref_hmac (_signing_key ref_engine) prefix).

Definition misaligned_token : bytes :=
  sign_and_encode (be_split 8 1000) ref_iv [Byte.x00].

Definition bad_padding_token : bytes :=
  sign_and_encode (be_split 8 1000) ref_iv
    (ref_cbc_encrypt (_encryption_key ref_engine) ref_iv
       (repeat Byte.x00 16)).

(** * Properties *)

#[local] Arguments Nat.div : simpl never.
#[local] Arguments Nat.modulo : simpl never.

(** ** Lists, slices and byte strings *)

Lemma bytes_eqb_eq (a b : bytes) : bytes_eqb a b = true <-> a = b.
Proof.
  revert b; induction a as [|x a IH]; intros [|y b]; simpl;
    try (split; [discriminate | congruence]); [tauto|].
  rewrite andb_true_iff, IH. split.
  - intros [H1 H2]. apply Byte.byte_dec_bl in H1. congruence.
  - intros H; injection H as -> ->. split; auto.
    apply Byte.byte_dec_lb. reflexivity.
Qed.

Lemma bytes_eqb_refl (a : bytes) : bytes_eqb a a = true.
Proof. apply bytes_eqb_eq. reflexivity. Qed.

Section Slices.
Context {A : Type}.
Implicit Types l a b c : list A.

Lemma slice_prefix a b (n : Z) :
  0 < n -> n = len b -> slice (a ++ b) None (Some (- n)) = a.
Proof.
  unfold slice, clamp_index, len. intros Hn ->.
  rewrite length_app.
  destruct (Z.ltb_spec (- Z.of_nat (length b)) 0); [|lia].
  simpl skipn. rewrite Nat.sub_0_r.
  replace (Z.to_nat _) with (length a + 0)%nat by lia.
  rewrite firstn_app_2. simpl. apply app_nil_r.
Qed.

Lemma slice_suffix a b (n : Z) :
  0 < n -> n = len b -> slice (a ++ b) (Some (- n)) None = b.
Proof.
  unfold slice, clamp_index, len. intros Hn ->.
  rewrite length_app.
  destruct (Z.ltb_spec (- Z.of_nat (length b)) 0); [|lia].
  replace (Z.to_nat _) with (length a + 0)%nat by lia.
  rewrite skipn_app, Nat.add_0_r, skipn_all.
  replace (length a - length a)%nat with 0%nat by lia. simpl.
  apply firstn_all2. lia.
Qed.

Lemma slice_middle a b c (i j : Z) :
  i = len a -> j = len a + len b ->
  slice (a ++ b ++ c) (Some i) (Some j) = b.
Proof.
  unfold slice, clamp_index, len. intros -> ->.
  rewrite !length_app.
  destruct (Z.ltb_spec (Z.of_nat (length a)) 0); [lia|].
  destruct (Z.ltb_spec (Z.of_nat (length a) + Z.of_nat (length b)) 0); [lia|].
  replace (Z.to_nat (Z.min (Z.of_nat (length a)) _)) with (length a + 0)%nat
    by lia.
  rewrite skipn_app, Nat.add_0_r, skipn_all.
  replace (length a - length a)%nat with 0%nat by lia. simpl.
  replace (_ - _)%nat with (length b + 0)%nat by lia.
  rewrite firstn_app_2. simpl. apply app_nil_r.
Qed.

Lemma slice_middle_neg a b c (i n : Z) :
  i = len a -> 0 < n -> n = len c ->
  slice (a ++ b ++ c) (Some i) (Some (- n)) = b.
Proof.
  unfold slice, clamp_index, len. intros -> Hn ->.
  rewrite !length_app.
  destruct (Z.ltb_spec (Z.of_nat (length a)) 0); [lia|].
  destruct (Z.ltb_spec (- Z.of_nat (length c)) 0); [|lia].
  replace (Z.to_nat (Z.min (Z.of_nat (length a)) _)) with (length a + 0)%nat
    by lia.
  rewrite skipn_app, Nat.add_0_r, skipn_all.
  replace (length a - length a)%nat with 0%nat by lia. simpl.
  replace (_ - _)%nat with (length b + 0)%nat by lia.
  rewrite firstn_app_2. simpl. apply app_nil_r.
Qed.

Lemma slice_split l (n : Z) :
  0 < n -> slice l None (Some (- n)) ++ slice l (Some (- n)) None = l.
Proof.
  unfold slice, clamp_index, len. intros Hn.
  destruct (Z.ltb_spec (- n) 0); [|lia].
  simpl skipn. rewrite Nat.sub_0_r.
  set (k := Z.to_nat (Z.max 0 (Z.of_nat (length l) + - n))).
  rewrite (firstn_all2 (n:=length l - k)); [apply firstn_skipn|].
  rewrite length_skipn. lia.
Qed.

Lemma length_slice_suffix l (n : Z) :
  0 < n -> len (slice l (Some (- n)) None) = Z.min n (len l).
Proof.
  unfold slice, clamp_index, len. intros Hn.
  destruct (Z.ltb_spec (- n) 0); [|lia].
  rewrite length_firstn, length_skipn. lia.
Qed.

Lemma length_slice l (i j : Z) :
  0 <= i <= j -> j <= len l -> len (slice l (Some i) (Some j)) = j - i.
Proof.
  unfold slice, clamp_index, len. intros Hi Hj.
  destruct (Z.ltb_spec i 0); [lia|].
  destruct (Z.ltb_spec j 0); [lia|].
  rewrite length_firstn, length_skipn. lia.
Qed.

Lemma slice_empty l (i j : Z) :
  0 <= i -> 0 < j -> len l < i + j -> slice l (Some i) (Some (- j)) = [].
Proof.
  unfold slice, clamp_index, len. intros Hi Hj Hl.
  destruct (Z.ltb_spec i 0); [lia|].
  destruct (Z.ltb_spec (- j) 0); [|lia].
  replace (_ - _)%nat with 0%nat by lia. reflexivity.
Qed.

End Slices.

(** ** [struct] packing *)

Lemma length_be_split n z : length (be_split n z) = n.
Proof. unfold be_split. rewrite length_rev. apply length_le_split. Qed.

Lemma be_combine_split z :
  0 <= z < 2 ^ 64 -> be_combine (be_split 8 z) = z.
Proof.
  intros Hz. unfold be_combine, be_split.
  rewrite rev_involutive, le_combine_split.
  apply Z.mod_small. exact Hz.
Qed.

Lemma unpack_pack_Q z ts : pack_Q z = Ok ts -> unpack_Q ts = Ok z.
Proof.
  unfold pack_Q, unpack_Q.
  destruct (Z.leb_spec 0 z), (Z.ltb_spec z (2 ^ 64)); simpl; try discriminate.
  intros [= <-]. rewrite length_be_split. simpl.
  f_equal. apply be_combine_split. lia.
Qed.

Lemma pack_Q_length z ts : pack_Q z = Ok ts -> length ts = 8%nat.
Proof.
  unfold pack_Q. destruct (_ && _); [|discriminate].
  intros [= <-]. apply length_be_split.
Qed.

Lemma pack_Q_in_range z : 0 <= z < 2 ^ 64 -> pack_Q z = Ok (be_split 8 z).
Proof.
  intros Hz. unfold pack_Q.
  destruct (Z.leb_spec 0 z), (Z.ltb_spec z (2 ^ 64)); simpl; trivial; lia.
Qed.

Lemma unpack_Q_range b z : unpack_Q b = Ok z -> 0 <= z < 2 ^ 64.
Proof.
  unfold unpack_Q. destruct (Nat.eqb_spec (length b) 8); [|discriminate].
  intros [= <-]. unfold be_combine.
  pose proof (le_combine_bound (rev b)) as Hb.
  rewrite length_rev, e in Hb. exact Hb.
Qed.

Lemma unpack_Q_exn b e : unpack_Q b = Raise e -> e = struct_error.
Proof. unfold unpack_Q. destruct (_ =? _)%nat; congruence. Qed.

(** ** Padding *)

Lemma pad_amount (n : nat) :
  (1 <= block_size - n mod block_size <= block_size)%nat.
Proof.
  unfold block_size.
  pose proof (Nat.mod_upper_bound n 16 ltac:(discriminate)). lia.
Qed.

Lemma PKCS7_pad_aligned data :
  (length (PKCS7_pad data) mod block_size = 0)%nat.
Proof.
  unfold PKCS7_pad. rewrite length_app, repeat_length.
  pose proof (pad_amount (length data)) as Hn.
  pose proof (Nat.div_mod_eq (length data) block_size) as Hd.
  replace (_ + _)%nat
    with ((length data / block_size + 1) * block_size)%nat by lia.
  apply Nat.Div0.mod_mul.
Qed.

Lemma last_app_repeat {A} (l : list A) (c d : A) (n : nat) :
  (0 < n)%nat -> last (l ++ repeat c n) d = c.
Proof.
  intros Hn. destruct n as [|n]; [lia|].
  replace (repeat c (S n)) with (repeat c n ++ [c]).
  - rewrite app_assoc. apply last_last.
  - change [c] with (repeat c 1). rewrite <- repeat_app.
    f_equal. lia.
Qed.

Lemma forallb_eqb_repeat c n : forallb (Byte.eqb c) (repeat c n) = true.
Proof.
  induction n; simpl; trivial.
  rewrite IHn, andb_true_r. apply Byte.byte_dec_lb. reflexivity.
Qed.

Lemma PKCS7_unpad_pad data : PKCS7_unpad (PKCS7_pad data) = Ok data.
Proof.
  unfold PKCS7_unpad.
  rewrite PKCS7_pad_aligned. simpl negb. rewrite orb_false_r.
  pose proof (pad_amount (length data)) as Hn.
  unfold PKCS7_pad in *.
  set (n := (block_size - length data mod block_size)%nat) in *.
  rewrite length_app, repeat_length.
  destruct (Nat.eqb_spec (length data + n) 0); [lia|].
  rewrite last_app_repeat by lia.
  rewrite byte.unsigned_of_Z. unfold byte.wrap.
  rewrite Z.mod_small by (unfold block_size in Hn; lia).
  rewrite Nat2Z.id.
  destruct (Nat.eqb_spec n 0); [lia|].
  destruct (Nat.ltb_spec block_size n); [lia|]. simpl orb. cbv iota.
  replace (length data + n - n)%nat with (length data + 0)%nat by lia.
  rewrite skipn_app, Nat.add_0_r, skipn_all.
  replace (length data - length data)%nat with 0%nat by lia.
  simpl. rewrite forallb_eqb_repeat.
  rewrite <- (Nat.add_0_r (length data)), firstn_app_2. simpl.
  now rewrite app_nil_r.
Qed.

Lemma PKCS7_unpad_exn padded e :
  PKCS7_unpad padded = Raise e -> e = ValueError.
Proof.
  unfold PKCS7_unpad.
  repeat match goal with |- context [if ?c then _ else _] => destruct c end;
    congruence.
Qed.

Lemma PKCS7_unpad_nil : PKCS7_unpad [] = Raise ValueError.
Proof. reflexivity. Qed.

(** ** The single-key engine *)

Section FernetFacts.
Context {P : Provider} {L : ProviderLaws P}.

Lemma Fernet_init_Ok key f :
  Fernet_init key = Ok f ->
  exists k, b64decode key = Some k /\ length k = 32%nat /\
            _signing_key f = firstn 16 k /\ _encryption_key f = skipn 16 k.
Proof.
  unfold Fernet_init, urlsafe_b64decode.
  destruct (b64decode key) as [k|]; cbn [bind]; [|discriminate].
  destruct (Nat.eqb_spec (length k) 32); cbn [negb]; [|discriminate].
  intros [= <-]. exists k. cbn [_signing_key _encryption_key].
  unfold slice, len. rewrite e.
  change (clamp_index (Z.of_nat 32) 16) with 16%nat.
  rewrite Nat.sub_0_r. repeat split; trivial.
  apply firstn_all2. rewrite length_skipn. lia.
Qed.

Lemma Fernet_init_engine_ok key f : Fernet_init key = Ok f -> engine_ok f.
Proof.
  intros H. apply Fernet_init_Ok in H as (k & _ & Hk & Hs & He).
  unfold engine_ok. rewrite Hs, He, length_firstn, length_skipn. lia.
Qed.

Lemma firstn_whole_blocks (d : bytes) :
  (length d mod block_size = 0)%nat ->
  firstn (length d / block_size * block_size) d = d.
Proof.
  intros H. apply firstn_all2.
  pose proof (Nat.div_mod_eq (length d) block_size). lia.
Qed.

Lemma Cipher_AES_CBC_Ok key iv :
  length key = 16%nat -> length iv = 16%nat ->
  Cipher_AES_CBC key iv = Ok (key, iv).
Proof. unfold Cipher_AES_CBC. intros -> ->. reflexivity. Qed.

Lemma _verify_signature_cases self data :
  (_verify_signature self data = Ok tt /\ tag_ok self data) \/
  (_verify_signature self data = Raise InvalidToken /\ ~ tag_ok self data).
Proof.
  unfold _verify_signature, HMAC_verify, tag_ok.
  destruct (bytes_eqb _ _) eqn:E; simpl.
  - left. apply bytes_eqb_eq in E. split; congruence.
  - right. split; trivial. intros H. rewrite <- H, bytes_eqb_refl in E.
    discriminate.
Qed.

(** A verified tag has 32 bytes, so the data holds at least 32. *)
Lemma tag_ok_length self data : tag_ok self data -> 32 <= len data.
Proof.
  unfold tag_ok. intros H.
  pose proof (length_slice_suffix data 32 ltac:(lia)) as Hl.
  change (Z.opp 32) with (-32) in Hl. rewrite H in Hl.
  unfold len in Hl at 1. rewrite hmac_sha256_length in Hl. lia.
Qed.

Lemma tag_ok_app self prefix tag :
  length tag = 32%nat ->
  tag_ok self (prefix ++ tag) <-> tag = hmac_sha256 (_signing_key self) prefix.
Proof.
  intros Ht. unfold tag_ok. change (-32) with (Z.opp 32).
  rewrite (slice_prefix prefix tag 32), (slice_suffix prefix tag 32);
    unfold len; try lia.
  reflexivity.
Qed.

Lemma _decrypt_data_unfold self data timestamp time_info :
  engine_ok self ->
  _decrypt_data self data timestamp time_info =
    if time_ok timestamp time_info
    then match _verify_signature self data with
         | Ok _ => decrypt_body self data
         | Raise e => Raise e
         end
    else Raise InvalidToken.
Proof.
  intros [_ Hk]. unfold _decrypt_data, time_ok.
  assert (Hbody : (_verify_signature self data ;;;
     let iv := slice data (Some 9) (Some 25) in
     let ciphertext := slice data (Some 25) (Some (-32)) in
     decryptor <- Cipher_AES_CBC (_encryption_key self) iv ;;
     let plaintext_padded := decryptor_update decryptor ciphertext in
     finalized <- try_except (decryptor_finalize decryptor ciphertext)
                    [ValueError] InvalidToken ;;
     let plaintext_padded0 := plaintext_padded ++ finalized in
     try_except (PKCS7_unpad plaintext_padded0) [ValueError] InvalidToken)
    = match _verify_signature self data with
      | Ok _ => decrypt_body self data
      | Raise e => Raise e
      end).
  { destruct (_verify_signature_cases self data) as [[-> Ht]|[-> _]];
      simpl; trivial.
    apply tag_ok_length in Ht.
    rewrite Cipher_AES_CBC_Ok; trivial.
    2:{ apply Nat2Z.inj. apply (length_slice data 9 25); lia. }
    simpl. unfold decrypt_body, decryptor_finalize, decryptor_update.
    destruct (Nat.eqb_spec
      (length (slice data (Some 25) (Some (-32))) mod block_size) 0);
      simpl; trivial.
    rewrite app_nil_r, firstn_whole_blocks; trivial. }
  destruct time_info as [[ttl now]|]; simpl.
  - destruct (timestamp + ttl <? now); simpl; trivial.
    destruct (now + _MAX_CLOCK_SKEW <? timestamp); simpl; trivial.
  - exact Hbody.
Qed.

Lemma try_except_ValueError_unpad d :
  (exists p, try_except (PKCS7_unpad d) [ValueError] InvalidToken = Ok p) \/
  try_except (PKCS7_unpad d) [ValueError] InvalidToken = Raise InvalidToken.
Proof.
  destruct (PKCS7_unpad d) eqn:E; simpl; eauto.
  apply PKCS7_unpad_exn in E. subst. simpl. auto.
Qed.

Lemma decrypt_body_cases self data :
  (exists p, decrypt_body self data = Ok p) \/
  decrypt_body self data = Raise InvalidToken.
Proof.
  unfold decrypt_body. destruct (_ =? _)%nat; auto.
  apply try_except_ValueError_unpad.
Qed.

Lemma _decrypt_data_cases self data timestamp time_info :
  engine_ok self ->
  (exists p, _decrypt_data self data timestamp time_info = Ok p) \/
  _decrypt_data self data timestamp time_info = Raise InvalidToken.
Proof.
  intros Hf. rewrite _decrypt_data_unfold by trivial.
  destruct (time_ok _ _); auto.
  destruct (_verify_signature_cases self data) as [[-> _]|[-> _]]; auto.
  apply decrypt_body_cases.
Qed.

Lemma _get_unverified_token_data_cases token :
  (exists ts data, _get_unverified_token_data token = Ok (ts, data) /\
     b64decode token = Some data /\ hd_error data = Some Byte.x80 /\
     unpack_Q (slice data (Some 1) (Some 9)) = Ok ts) \/
  _get_unverified_token_data token = Raise InvalidToken.
Proof.
  unfold _get_unverified_token_data, urlsafe_b64decode.
  destruct (b64decode token) as [data|]; simpl; auto.
  destruct data as [|b0 data]; auto.
  destruct (Byte.eqb b0 Byte.x80) eqn:Eb; simpl; auto.
  apply Byte.byte_dec_bl in Eb. subst b0.
  destruct (unpack_Q _) as [ts|e] eqn:Eu; simpl.
  - left. exists ts, (Byte.x80 :: data). auto.
  - apply unpack_Q_exn in Eu. subst. simpl. auto.
Qed.

Lemma _get_unverified_token_data_b64encode ts rest z :
  length ts = 8%nat -> be_combine ts = z ->
  _get_unverified_token_data (b64encode ([Byte.x80] ++ ts ++ rest))
  = Ok (z, [Byte.x80] ++ ts ++ rest).
Proof.
  intros Hts Hz. unfold _get_unverified_token_data, urlsafe_b64decode.
  rewrite b64decode_b64encode. simpl try_except. simpl bind.
  change (Byte.x80 :: ts ++ rest) with ([Byte.x80] ++ ts ++ rest).
  rewrite (slice_middle [Byte.x80] ts rest 1 9);
    unfold len; rewrite ?Hts; trivial.
  unfold unpack_Q. rewrite Hts. simpl. now rewrite Hz.
Qed.

Lemma tag_ok_split self data :
  tag_ok self data ->
  exists prefix tag, data = prefix ++ tag /\ length tag = 32%nat /\
                     tag = hmac_sha256 (_signing_key self) prefix.
Proof.
  intros H. exists (slice data None (Some (-32))), (slice data (Some (-32)) None).
  split; [|split].
  - symmetry. apply (slice_split data 32). lia.
  - rewrite H. apply hmac_sha256_length.
  - exact H.
Qed.

Lemma _decrypt_data_Ok_tag self data timestamp time_info p :
  engine_ok self ->
  _decrypt_data self data timestamp time_info = Ok p ->
  time_ok timestamp time_info = true /\ tag_ok self data /\
  decrypt_body self data = Ok p.
Proof.
  intros Hf. rewrite _decrypt_data_unfold by trivial.
  destruct (time_ok _ _); [|discriminate].
  destruct (_verify_signature_cases self data) as [[-> Ht]|[-> _]];
    [auto|discriminate].
Qed.

Lemma _decrypt_data_bad_tag self data timestamp time_info :
  engine_ok self -> ~ tag_ok self data ->
  _decrypt_data self data timestamp time_info = Raise InvalidToken.
Proof.
  intros Hf Hn. rewrite _decrypt_data_unfold by trivial.
  destruct (time_ok _ _); trivial.
  destruct (_verify_signature_cases self data) as [[_ Ht]|[-> _]]; tauto.
Qed.

(** Data shorter than 57 bytes have no ciphertext, and no padding to
    remove. *)
Lemma decrypt_body_short self data :
  engine_ok self -> tag_ok self data -> (length data < 57)%nat ->
  decrypt_body self data = Raise InvalidToken.
Proof.
  intros [_ Hk] Ht Hl. apply tag_ok_length in Ht.
  unfold decrypt_body. change (-32) with (Z.opp 32).
  rewrite (slice_empty data 25 32) by (unfold len in *; lia).
  cbn [length Nat.eqb]. change (0 mod block_size)%nat with 0%nat.
  cbn [Nat.eqb].
  assert (Hiv : length (slice data (Some 9) (Some 25)) = 16%nat).
  { apply Nat2Z.inj. apply (length_slice data 9 25); lia. }
  pose proof (cbc_decrypt_length (_encryption_key self)
                (slice data (Some 9) (Some 25)) [] Hk Hiv eq_refl) as Hc.
  apply length_zero_iff_nil in Hc. rewrite Hc. reflexivity.
Qed.

Lemma _decrypt_data_short self data timestamp time_info :
  engine_ok self -> (length data < 57)%nat ->
  _decrypt_data self data timestamp time_info = Raise InvalidToken.
Proof.
  intros Hf Hl. rewrite _decrypt_data_unfold by trivial.
  destruct (time_ok _ _); trivial.
  destruct (_verify_signature_cases self data) as [[-> Ht]|[-> _]]; trivial.
  now apply decrypt_body_short.
Qed.

Lemma _get_unverified_token_data_Ok token ts data :
  _get_unverified_token_data token = Ok (ts, data) ->
  b64decode token = Some data /\ hd_error data = Some Byte.x80 /\
  unpack_Q (slice data (Some 1) (Some 9)) = Ok ts.
Proof.
  intros H.
  destruct (_get_unverified_token_data_cases token)
    as [(ts' & data' & E & H1 & H2 & H3)|E]; rewrite E in H; [|discriminate].
  injection H as -> ->. auto.
Qed.

Lemma _get_unverified_token_data_parse token ts data :
  b64decode token = Some data -> hd_error data = Some Byte.x80 ->
  unpack_Q (slice data (Some 1) (Some 9)) = Ok ts ->
  _get_unverified_token_data token = Ok (ts, data).
Proof.
  intros Hd Hh Hu. unfold _get_unverified_token_data, urlsafe_b64decode.
  rewrite Hd. cbn [try_except bind].
  destruct data as [|b0 data]; [discriminate|].
  injection Hh as ->. cbn [Byte.eqb negb]. rewrite Hu. reflexivity.
Qed.

(** [decrypt] with a ttl and [decrypt_at_time] run the same code. *)
Lemma decrypt_at_time_decrypt self token ttl now :
  decrypt_at_time self token (Some ttl) now = decrypt self token (Some ttl) now.
Proof. reflexivity. Qed.

Lemma decrypt_cases self token ttl now :
  engine_ok self ->
  (exists p, decrypt self token ttl now = Ok p) \/
  decrypt self token ttl now = Raise InvalidToken.
Proof.
  intros Hf. unfold decrypt.
  destruct (_get_unverified_token_data_cases token)
    as [(ts & data & E & _)|E]; rewrite E; cbn [bind fst snd]; auto.
  now apply _decrypt_data_cases.
Qed.

(** [decrypt] on a token that decodes to [data]: parse, then
    [_decrypt_data]. *)
Lemma decrypt_decoded self token data ttl now :
  b64decode token = Some data ->
  decrypt self token ttl now = Raise InvalidToken \/
  exists ts, _get_unverified_token_data token = Ok (ts, data) /\
    decrypt self token ttl now
    = _decrypt_data self data ts
        match ttl with None => None | Some t => Some (t, now) end.
Proof.
  intros Hd. unfold decrypt.
  destruct (_get_unverified_token_data_cases token)
    as [(ts & data' & E & Hd' & _)|E]; rewrite E; cbn [bind fst snd]; auto.
  right. exists ts.
  assert (data' = data) by congruence. subst. auto.
Qed.

(** Decrypting data made of a signed prefix and its own tag. *)
Lemma _decrypt_data_signed self ts iv ct timestamp time_info :
  engine_ok self -> length ts = 8%nat -> length iv = 16%nat ->
  let prefix := signed_prefix ts iv ct in
  _decrypt_data self (prefix ++ hmac_sha256 (_signing_key self) prefix)
    timestamp time_info =
    if time_ok timestamp time_info
    then if (length ct mod block_size =? 0)%nat
         then try_except
                (PKCS7_unpad (cbc_decrypt (_encryption_key self) iv ct))
                [ValueError] InvalidToken
         else Raise InvalidToken
    else Raise InvalidToken.
Proof.
  intros Hf Hts Hiv prefix. rewrite _decrypt_data_unfold by trivial.
  destruct (time_ok _ _); trivial.
  set (tag := hmac_sha256 _ _).
  assert (Htag : length tag = 32%nat) by apply hmac_sha256_length.
  destruct (_verify_signature_cases self (prefix ++ tag)) as [[-> _]|[_ Hn]].
  2:{ exfalso. apply Hn. now apply tag_ok_app. }
  unfold decrypt_body, prefix, signed_prefix.
  replace (([Byte.x80] ++ ts ++ iv ++ ct) ++ tag)
    with (([Byte.x80] ++ ts) ++ iv ++ (ct ++ tag))
    by (now rewrite <- !app_assoc).
  rewrite (slice_middle _ iv _ 9 25);
    unfold len; rewrite ?length_app, ?Hts, ?Hiv; trivial.
  replace (([Byte.x80] ++ ts) ++ iv ++ (ct ++ tag))
    with (([Byte.x80] ++ ts ++ iv) ++ ct ++ tag)
    by (now rewrite <- !app_assoc).
  change (-32) with (Z.opp 32).
  rewrite (slice_middle_neg _ ct tag 25 32);
    unfold len; rewrite ?length_app, ?Hts, ?Hiv, ?Htag; trivial; lia.
Qed.

Lemma _encrypt_from_parts_Ok self data current_time iv :
  engine_ok self -> length iv = 16%nat -> 0 <= current_time < 2 ^ 64 ->
  _encrypt_from_parts self data current_time iv
  = Ok (b64encode (token_data self data current_time iv)).
Proof.
  intros [_ Hk] Hiv Ht. unfold _encrypt_from_parts.
  rewrite Cipher_AES_CBC_Ok by trivial. cbn [bind].
  unfold encryptor_finalize, encryptor_update.
  rewrite PKCS7_pad_aligned. cbn [Nat.eqb bind fst snd].
  rewrite pack_Q_in_range by trivial. cbn [bind].
  rewrite app_nil_r, firstn_whole_blocks by apply PKCS7_pad_aligned.
  reflexivity.
Qed.

(** The token of [_encrypt_from_parts] parses to its time and data. *)
Lemma _get_unverified_token_data_token self data current_time iv :
  0 <= current_time < 2 ^ 64 ->
  _get_unverified_token_data
    (b64encode (token_data self data current_time iv))
  = Ok (current_time, token_data self data current_time iv).
Proof.
  intros Ht. unfold token_data, signed_prefix. cbv zeta.
  rewrite <- !app_assoc.
  apply _get_unverified_token_data_b64encode.
  - apply length_be_split.
  - now apply be_combine_split.
Qed.

(** Decrypting the data of a token of [_encrypt_from_parts]. *)
Lemma _decrypt_data_token self data current_time iv timestamp time_info :
  engine_ok self -> length iv = 16%nat ->
  _decrypt_data self (token_data self data current_time iv)
    timestamp time_info
  = if time_ok timestamp time_info then Ok data else Raise InvalidToken.
Proof.
  intros Hf Hiv. unfold token_data. cbv zeta.
  rewrite _decrypt_data_signed by (trivial; apply length_be_split).
  destruct (time_ok _ _); trivial.
  destruct Hf as [_ Hk].
  pose proof (PKCS7_pad_aligned data) as Ha.
  rewrite cbc_encrypt_length, Ha by trivial.
  cbn [Nat.eqb].
  rewrite cbc_decrypt_encrypt by trivial.
  now rewrite PKCS7_unpad_pad.
Qed.

End FernetFacts.

(** ** The reference provider *)

Lemma all_bytes_complete b : In b all_bytes.
Proof.
  unfold all_bytes. rewrite <- (byte.of_Z_unsigned b).
  pose proof (byte.unsigned_range b) as Hb.
  rewrite <- (Z2Nat.id (byte.unsigned b)) by lia.
  apply (in_map (fun n => byte.of_Z (Z.of_nat n))).
  apply in_seq. change (2 ^ 8) with 256 in Hb. lia.
Qed.

Lemma forall_bytes (p : byte -> bool) :
  forallb p all_bytes = true -> forall x, p x = true.
Proof.
  intros H x. rewrite forallb_forall in H. apply H, all_bytes_complete.
Qed.

Lemma forall_bytes2 (p : byte -> byte -> bool) :
  forallb (fun x => forallb (p x) all_bytes) all_bytes = true ->
  forall x y, p x y = true.
Proof.
  intros H x. apply forall_bytes. revert x. apply forall_bytes. exact H.
Qed.

Lemma a2b_char_b2a_char v :
  sextet v = true ->
  Byte.eqb (b2a_char v) BASE64_PAD = false /\ a2b_char (b2a_char v) = Some v.
Proof.
  unfold sextet. rewrite andb_true_iff, Z.leb_le, Z.ltb_lt. intros Hv.
  assert (Hin : In (Z.to_nat v) (seq 0 64)) by (apply in_seq; lia).
  rewrite <- (Z2Nat.id v) by lia.
  revert Hin. generalize (Z.to_nat v). intros n Hin.
  assert (H : forallb (fun n =>
            negb (Byte.eqb (b2a_char (Z.of_nat n)) BASE64_PAD) &&
            match a2b_char (b2a_char (Z.of_nat n)) with
            | Some w => w =? Z.of_nat n
            | None => false
            end) (seq 0 64) = true) by (vm_compute; reflexivity).
  rewrite forallb_forall in H. specialize (H n Hin).
  apply andb_true_iff in H as [H1 H2].
  split; [now apply negb_true_iff|].
  destruct (a2b_char _); [|discriminate].
  apply Z.eqb_eq in H2. congruence.
Qed.

Lemma sextets_ok x y :
  sextet (s0 x) && sextet (s1 x y) && sextet (s2 x y) && sextet (s3 x) = true.
Proof.
  revert x y. apply forall_bytes2. vm_compute. reflexivity.
Qed.

Lemma group_bytes x y :
  Byte.eqb (byte.of_Z (Z.lor (Z.shiftl (s0 x) 2) (Z.shiftr (s1 x y) 4))) x
  && (Z.land (s1 x y) 15 =? Z.shiftr (byte.unsigned y) 4)
  && (Z.land (s2 x y) 3 =? Z.shiftr (byte.unsigned y) 6)
  && Byte.eqb (byte.of_Z (Z.lor (Z.shiftl (Z.shiftr (byte.unsigned x) 4) 4)
                            (Z.shiftr (s2 x y) 2))) x
  && Byte.eqb (byte.of_Z (Z.lor (Z.shiftl (Z.shiftr (byte.unsigned x) 6) 6)
                            (s3 x))) x = true.
Proof.
  revert x y. apply forall_bytes2. vm_compute. reflexivity.
Qed.

Lemma tail_bytes x y :
  sextet (Z.shiftl (Z.land (byte.unsigned x) 3) 4)
  && sextet (Z.shiftl (Z.land (byte.unsigned y) 15) 2)
  && Byte.eqb (byte.of_Z (Z.lor (Z.shiftl (s0 x) 2)
       (Z.shiftr (Z.shiftl (Z.land (byte.unsigned x) 3) 4) 4))) x
  && Byte.eqb (byte.of_Z (Z.lor (Z.shiftl (Z.shiftr (byte.unsigned y) 4) 4)
       (Z.shiftr (Z.shiftl (Z.land (byte.unsigned y) 15) 2) 2))) y = true.
Proof.
  revert x y. apply forall_bytes2. vm_compute. reflexivity.
Qed.

Lemma a2b_base64_data v s quad_pos leftchar pads :
  sextet v = true ->
  a2b_base64 (b2a_char v :: s) quad_pos leftchar pads =
    if quad_pos =? 0 then a2b_base64 s 1 v 0
    else if quad_pos =? 1 then
      emit (Z.lor (Z.shiftl leftchar 2) (Z.shiftr v 4))
        (a2b_base64 s 2 (Z.land v 15) 0)
    else if quad_pos =? 2 then
      emit (Z.lor (Z.shiftl leftchar 4) (Z.shiftr v 2))
        (a2b_base64 s 3 (Z.land v 3) 0)
    else emit (Z.lor (Z.shiftl leftchar 6) v) (a2b_base64 s 0 0 0).
Proof.
  intros Hv. destruct (a2b_char_b2a_char v Hv) as [H1 H2].
  cbn [a2b_base64]. rewrite H1, H2. reflexivity.
Qed.

Lemma list_ind3 {A} (Q : list A -> Prop) :
  Q [] -> (forall x, Q [x]) -> (forall x y, Q [x; y]) ->
  (forall x y z l, Q l -> Q (x :: y :: z :: l)) ->
  forall l, Q l.
Proof.
  intros H0 H1 H2 H3.
  fix IH 1. intros [|x [|y [|z l]]].
  - exact H0.
  - apply H1.
  - apply H2.
  - apply H3, IH.
Qed.

Lemma emit_byte v b r : Byte.eqb (byte.of_Z v) b = true ->
  emit v r = option_map (cons b) r.
Proof. intros H. apply Byte.byte_dec_bl in H. unfold emit. now rewrite H. Qed.

Ltac split_andb :=
  repeat match goal with
         | H : (_ && _) = true |- _ => apply andb_true_iff in H; destruct H
         end.

Lemma a2b_b2a_base64 d : forall leftchar,
  a2b_base64 (b2a_base64 d) 0 leftchar 0 = Some d.
Proof.
  induction d as [|x|x y|x y z d IH] using list_ind3; intros lc.
  - reflexivity.
  - pose proof (sextets_ok x x) as Hs. pose proof (tail_bytes x x) as Ht.
    split_andb. cbn [b2a_base64]. fold (s0 x).
    repeat (rewrite a2b_base64_data by assumption; cbn [Z.eqb Pos.eqb]).
    erewrite emit_byte by eassumption. reflexivity.
  - pose proof (sextets_ok x y) as Hs. pose proof (tail_bytes x y) as Ht.
    pose proof (group_bytes x y) as Hg.
    split_andb. cbn [b2a_base64]. fold (s0 x) (s1 x y).
    repeat (rewrite a2b_base64_data by assumption; cbn [Z.eqb Pos.eqb]).
    erewrite emit_byte by eassumption.
    match goal with H : (Z.land (s1 x y) 15 =? _) = true |- _ =>
      apply Z.eqb_eq in H; rewrite H end.
    erewrite emit_byte by eassumption. reflexivity.
  - pose proof (sextets_ok x y) as Hs. pose proof (sextets_ok y z) as Hs'.
    pose proof (group_bytes x y) as Hg. pose proof (group_bytes y z) as Hg'.
    pose proof (group_bytes z z) as Hg''. pose proof (sextets_ok z z) as Hs''.
    split_andb. cbn [b2a_base64]. fold (s0 x) (s1 x y) (s2 y z) (s3 z).
    repeat (rewrite a2b_base64_data by assumption; cbn [Z.eqb Pos.eqb]).
    rewrite IH.
    repeat match goal with H : (_ =? _) = true |- _ =>
      apply Z.eqb_eq in H; rewrite ?H end.
    erewrite !emit_byte by eassumption. reflexivity.
Qed.

Lemma byte_xor_xor a b : byte.xor (byte.xor a b) b = a.
Proof.
  apply Byte.byte_dec_bl. revert a b. apply forall_bytes2.
  vm_compute. reflexivity.
Qed.

Lemma length_xor_bytes a b : length (xor_bytes a b) = Nat.min (length a) (length b).
Proof. unfold xor_bytes. now rewrite length_map, length_combine. Qed.

Lemma xor_bytes_xor a : forall b,
  length a = length b -> xor_bytes (xor_bytes a b) b = a.
Proof.
  unfold xor_bytes.
  induction a as [|x a IH]; intros [|y b] H; try discriminate; trivial.
  cbn [combine map fst snd]. rewrite byte_xor_xor. f_equal.
  apply IH. now injection H.
Qed.

Lemma aligned_blocks (d : bytes) :
  (length d mod block_size = 0)%nat ->
  length d = (length d / block_size * block_size)%nat.
Proof. intros H. pose proof (Nat.div_mod_eq (length d) block_size). lia. Qed.

Lemma cbc_encrypt_blocks_length n : forall key prev data,
  length key = block_size -> length prev = block_size ->
  length data = (n * block_size)%nat ->
  length (cbc_encrypt_blocks n key prev data) = length data.
Proof.
  induction n as [|n IH]; intros key prev data Hk Hp Hd; cbn [cbc_encrypt_blocks].
  - simpl in Hd. now rewrite Hd.
  - assert (Hc : length (ref_block_encrypt key
                   (xor_bytes (firstn block_size data) prev)) = block_size).
    { unfold ref_block_encrypt. rewrite !length_xor_bytes, length_firstn. lia. }
    rewrite length_app, IH; trivial.
    + rewrite Hc, length_skipn. lia.
    + rewrite length_skipn. lia.
Qed.

Lemma cbc_decrypt_blocks_length n : forall key prev data,
  length key = block_size -> length prev = block_size ->
  length data = (n * block_size)%nat ->
  length (cbc_decrypt_blocks n key prev data) = length data.
Proof.
  induction n as [|n IH]; intros key prev data Hk Hp Hd; cbn [cbc_decrypt_blocks].
  - simpl in Hd. now rewrite Hd.
  - rewrite length_app, IH; trivial.
    + unfold ref_block_decrypt.
      rewrite !length_xor_bytes, length_firstn, length_skipn. lia.
    + rewrite length_firstn. lia.
    + rewrite length_skipn. lia.
Qed.

Lemma cbc_decrypt_encrypt_blocks n : forall key prev data,
  length key = block_size -> length prev = block_size ->
  length data = (n * block_size)%nat ->
  cbc_decrypt_blocks n key prev (cbc_encrypt_blocks n key prev data) = data.
Proof.
  induction n as [|n IH]; intros key prev data Hk Hp Hd;
    cbn [cbc_decrypt_blocks cbc_encrypt_blocks].
  - simpl in Hd. now apply length_zero_iff_nil in Hd.
  - set (c := ref_block_encrypt key (xor_bytes (firstn block_size data) prev)).
    assert (Hc : length c = block_size).
    { unfold c, ref_block_encrypt.
      rewrite !length_xor_bytes, length_firstn. lia. }
    replace (firstn block_size (c ++ _)) with c.
    2:{ rewrite <- Hc, <- (Nat.add_0_r (length c)), firstn_app_2.
        simpl. now rewrite app_nil_r. }
    replace (skipn block_size (c ++ _))
      with (cbc_encrypt_blocks n key c (skipn block_size data)).
    2:{ rewrite <- Hc, skipn_app, skipn_all, Nat.sub_diag. reflexivity. }
    rewrite IH; trivial.
    2:{ rewrite length_skipn. lia. }
    unfold c, ref_block_decrypt, ref_block_encrypt.
    rewrite !xor_bytes_xor.
    + apply firstn_skipn.
    + rewrite length_firstn. lia.
    + rewrite length_xor_bytes, length_firstn. lia.
Qed.

Lemma ref_laws : ProviderLaws ref_provider.
Proof.
  constructor; cbn [b64encode b64decode hmac_sha256 cbc_encrypt cbc_decrypt
                    ref_provider].
  - intros d. apply a2b_b2a_base64.
  - intros k m. apply length_be_split.
  - intros k iv d Hk Hiv Hd. apply cbc_encrypt_blocks_length; trivial.
    now apply aligned_blocks.
  - intros k iv d Hk Hiv Hd. apply cbc_decrypt_blocks_length; trivial.
    now apply aligned_blocks.
  - intros k iv d Hk Hiv Hd. unfold ref_cbc_decrypt, ref_cbc_encrypt.
    rewrite cbc_encrypt_blocks_length; trivial; [|now apply aligned_blocks].
    apply cbc_decrypt_encrypt_blocks; trivial. now apply aligned_blocks.
Qed.

Lemma ref_engine_init : Fernet_init ref_key = Ok ref_engine.
Proof. vm_compute. reflexivity. Qed.

Lemma new_engine_init : Fernet_init new_key = Ok new_engine.
Proof. vm_compute. reflexivity. Qed.

(** ** The key ring *)

Section RingFacts.
Context {P : Provider} {L : ProviderLaws P}.

Lemma built_from_engine_ok keys fernets f :
  built_from keys fernets -> In f fernets -> engine_ok f.
Proof.
  induction 1 as [|k g keys fernets Hk _ IH]; intros Hin; [destruct Hin|].
  destruct Hin as [<-|Hin]; auto.
  now apply Fernet_init_engine_ok in Hk.
Qed.

Lemma first_success_ext {A} (a1 a2 : nat -> Fernet -> result A) fernets :
  forall i,
  (forall j f, nth_error fernets j = Some f -> a1 (i + j)%nat f = a2 (i + j)%nat f) ->
  first_success a1 i fernets = first_success a2 i fernets.
Proof.
  induction fernets as [|f rest IH]; intros i H; cbn [first_success]; trivial.
  pose proof (H 0%nat f eq_refl) as H0. rewrite Nat.add_0_r in H0.
  rewrite H0, (IH (S i)); trivial.
  intros j g Hg. rewrite Nat.add_succ_l, <- Nat.add_succ_r.
  now apply H.
Qed.

Lemma first_success_first {A} (attempt : nat -> Fernet -> result A)
  pre f post a :
  forall i,
  (forall j g, nth_error pre j = Some g ->
     attempt (i + j)%nat g = Raise InvalidToken) ->
  attempt (i + length pre)%nat f = Ok a ->
  first_success attempt i (pre ++ f :: post) = Ok a.
Proof.
  induction pre as [|g pre IH]; intros i Hpre Hf;
    cbn [first_success app length] in *.
  - rewrite Nat.add_0_r in Hf. now rewrite Hf.
  - pose proof (Hpre 0%nat g eq_refl) as Hg. rewrite Nat.add_0_r in Hg.
    rewrite Hg. cbn [isinstance exn_eqb orb].
    apply IH.
    + intros j h Hh. rewrite Nat.add_succ_l, <- Nat.add_succ_r.
      now apply Hpre.
    + now rewrite Nat.add_succ_l, <- Nat.add_succ_r.
Qed.

Lemma first_success_cases {A} (attempt : nat -> Fernet -> result A) fernets :
  forall i,
  (forall j f, nth_error fernets j = Some f ->
     (exists a, attempt (i + j)%nat f = Ok a) \/
     attempt (i + j)%nat f = Raise InvalidToken) ->
  (first_success attempt i fernets = Raise InvalidToken /\
   forall j f, nth_error fernets j = Some f ->
     attempt (i + j)%nat f = Raise InvalidToken) \/
  (exists pre f post a,
     fernets = pre ++ f :: post /\
     (forall j g, nth_error pre j = Some g ->
        attempt (i + j)%nat g = Raise InvalidToken) /\
     attempt (i + length pre)%nat f = Ok a /\
     first_success attempt i fernets = Ok a).
Proof.
  induction fernets as [|f rest IH]; intros i H; cbn [first_success].
  - left. split; trivial. intros [|j] f; discriminate.
  - pose proof (H 0%nat f eq_refl) as H0. rewrite Nat.add_0_r in H0.
    destruct H0 as [[a Ha]|Hr].
    + right. exists [], f, rest, a. cbn [length]. rewrite Nat.add_0_r, Ha.
      repeat split; trivial. intros [|j] g; discriminate.
    + rewrite Hr. cbn [isinstance exn_eqb orb].
      destruct (IH (S i))
        as [[Hall Hn]|(pre & g & post & a & -> & Hpre & Hg & Hs)].
      * intros j g Hg. rewrite Nat.add_succ_l, <- Nat.add_succ_r.
        now apply H.
      * left. split; trivial. intros [|j] g Hg.
        -- injection Hg as <-. now rewrite Nat.add_0_r.
        -- rewrite Nat.add_succ_r, <- Nat.add_succ_l. now apply Hn.
      * right. exists (f :: pre), g, post, a. cbn [length].
        rewrite Nat.add_succ_r, <- Nat.add_succ_l.
        repeat split; trivial. intros [|j] h Hh.
        -- injection Hh as <-. now rewrite Nat.add_0_r.
        -- rewrite Nat.add_succ_r, <- Nat.add_succ_l. now apply Hpre.
Qed.

Lemma MultiFernet_init_Ok fernets self :
  MultiFernet_init fernets = Ok self ->
  _fernets self = fernets /\ exists f0 rest, fernets = f0 :: rest.
Proof.
  destruct fernets as [|f0 rest]; [discriminate|].
  intros [= <-]. split; trivial. eauto.
Qed.

(** [extract_timestamp] on a token that parses and whose tag verifies. *)
Lemma extract_timestamp_Ok self token ts data :
  _get_unverified_token_data token = Ok (ts, data) -> tag_ok self data ->
  extract_timestamp self token = Ok ts.
Proof.
  intros Hp Ht. unfold extract_timestamp. rewrite Hp. cbn [bind fst snd].
  destruct (_verify_signature_cases self data) as [[-> _]|[_ Hn]];
    [reflexivity|tauto].
Qed.

Lemma tag_ok_token_data self data current_time iv :
  tag_ok self (token_data self data current_time iv).
Proof.
  unfold token_data. cbv zeta. apply tag_ok_app; trivial.
  apply hmac_sha256_length.
Qed.

End RingFacts.

(** * The claims *)

(** C1. Round trip: for every payload and every time [T] in [0 .. 2^64-1],
    a token made by [encrypt_at_time] at [T] (with any 16 random bytes as
    IV) is decrypted to exactly the payload by an engine built from the same
    master key, with no ttl, or with a ttl and a clock under which the token
    is neither expired nor future-dated. *)
Theorem round_trip {P : Provider} {L : ProviderLaws P}
  (key : bytes) (enc dec : Fernet) (payload : bytes) (T : Z)
  (urandom16 : bytes) (ttl : option Z) (now : Z) :
  Fernet_init key = Ok enc -> Fernet_init key = Ok dec ->
  length urandom16 = 16%nat ->
  0 <= T <= 2 ^ 64 - 1 ->
  (forall t, ttl = Some t -> ~ T + t < now /\ ~ now + 60 < T) ->
  exists token,
    encrypt_at_time enc payload T urandom16 = Ok token /\
    encrypt enc payload T urandom16 = Ok token /\
    decrypt dec token ttl now = Ok payload /\
    (ttl <> None -> decrypt_at_time dec token ttl now = Ok payload).
Proof.
  intros He Hd Hiv HT Httl.
  assert (dec = enc) by congruence. subst dec.
  pose proof (Fernet_init_engine_ok _ _ He) as Hf.
  exists (b64encode (token_data enc payload T urandom16)).
  assert (Hdec : forall ti, time_ok T ti = true ->
    (td <- _get_unverified_token_data
             (b64encode (token_data enc payload T urandom16)) ;;
     _decrypt_data enc (snd td) (fst td) ti) = Ok payload).
  { intros ti Hti.
    rewrite _get_unverified_token_data_token by lia. cbn [bind fst snd].
    rewrite _decrypt_data_token, Hti; trivial. }
  split; [|split; [|split]].
  - unfold encrypt_at_time. apply _encrypt_from_parts_Ok; trivial. lia.
  - unfold encrypt, encrypt_at_time. apply _encrypt_from_parts_Ok; trivial.
    lia.
  - unfold decrypt. apply Hdec. destruct ttl as [t|]; trivial.
    destruct (Httl t eq_refl) as [H1 H2]. unfold time_ok, _MAX_CLOCK_SKEW.
    destruct (Z.ltb_spec (T + t) now), (Z.ltb_spec (now + 60) T);
      trivial; lia.
  - intros Hn. destruct ttl as [t|]; [|congruence].
    unfold decrypt_at_time. apply Hdec.
    destruct (Httl t eq_refl) as [H1 H2]. unfold time_ok, _MAX_CLOCK_SKEW.
    destruct (Z.ltb_spec (T + t) now), (Z.ltb_spec (now + 60) T);
      trivial; lia.
Qed.

Lemma round_trip_witness :
  exists token,
    encrypt_at_time ref_engine hello 1000 ref_iv = Ok token /\
    encrypt ref_engine hello 1000 ref_iv = Ok token /\
    decrypt ref_engine token (Some 10) 1005 = Ok hello /\
    (Some 10 <> None ->
     decrypt_at_time ref_engine token (Some 10) 1005 = Ok hello).
Proof.
  apply (round_trip (L := ref_laws) ref_key ref_engine ref_engine hello 1000
           ref_iv (Some 10) 1005).
  - vm_compute. reflexivity.
  - vm_compute. reflexivity.
  - reflexivity.
  - lia.
  - intros t [= <-]. lia.
Defined.

(** C2. [decrypt] returns a plaintext only for a token whose trailing 32
    bytes are the MAC, under the signing key, of the bytes before them; a
    token with any tag mismatch fails with [InvalidToken], whatever the ttl
    policy, the clock and the timestamp. *)
Theorem tag_mismatch_fails {P : Provider} {L : ProviderLaws P}
  (key : bytes) (self : Fernet) (token : bytes) :
  Fernet_init key = Ok self ->
  (forall ttl now p, decrypt self token ttl now = Ok p ->
     exists prefix tag,
       b64decode token = Some (prefix ++ tag) /\ length tag = 32%nat /\
       tag = hmac_sha256 (_signing_key self) prefix) /\
  (forall data, b64decode token = Some data -> ~ tag_ok self data ->
     (forall ttl now, decrypt self token ttl now = Raise InvalidToken) /\
     (forall ttl now,
        decrypt_at_time self token (Some ttl) now = Raise InvalidToken) /\
     (forall timestamp time_info,
        _decrypt_data self data timestamp time_info = Raise InvalidToken)).
Proof.
  intros Hi. pose proof (Fernet_init_engine_ok _ _ Hi) as Hf. split.
  - intros ttl now p Hp. unfold decrypt in Hp.
    destruct (_get_unverified_token_data_cases token)
      as [(ts & data & E & Hd & _)|E]; rewrite E in Hp; [|discriminate].
    cbn [bind fst snd] in Hp.
    apply _decrypt_data_Ok_tag in Hp as (_ & Ht & _); trivial.
    apply tag_ok_split in Ht as (prefix & tag & -> & Hl & Htag). eauto.
  - intros data Hd Hn.
    assert (H : forall ttl now,
              decrypt self token ttl now = Raise InvalidToken).
    { intros ttl now.
      destruct (decrypt_decoded self token data ttl now Hd)
        as [E|(ts & _ & ->)]; trivial.
      now apply _decrypt_data_bad_tag. }
    split; [exact H|]. split.
    + intros ttl now. rewrite decrypt_at_time_decrypt. apply H.
    + intros. now apply _decrypt_data_bad_tag.
Qed.

Lemma tag_mismatch_fails_witness :
  decrypt ref_engine tampered_token None 0 = Raise InvalidToken /\
  decrypt ref_engine tampered_token (Some 10) 1005 = Raise InvalidToken.
Proof.
  destruct (tag_mismatch_fails (L := ref_laws) ref_key ref_engine
              tampered_token ref_engine_init) as [_ H].
  destruct (H tampered_data) as [Hd _].
  - vm_compute. reflexivity.
  - vm_compute. discriminate.
  - split; apply Hd.
Defined.

(** C3. With a ttl policy [(ttl, now)], a token with embedded timestamp [ts]
    is rejected when [ts + ttl < now] (expired) or [now + 60 < ts]
    (future-dated), and otherwise the ttl policy changes nothing: the token
    is handled as without a ttl.  At the boundaries: a token issued at [T]
    with [ttl = 60] is accepted at [now = T+60] and rejected at [T+61]; a
    token stamped [now+60] is accepted and one stamped [now+61] rejected. *)
Theorem ttl_policy {P : Provider} {L : ProviderLaws P}
  (key : bytes) (self : Fernet) :
  Fernet_init key = Ok self ->
  (forall token ts data ttl now,
     _get_unverified_token_data token = Ok (ts, data) ->
     (ts + ttl < now \/ now + 60 < ts ->
      decrypt self token (Some ttl) now = Raise InvalidToken /\
      decrypt_at_time self token (Some ttl) now = Raise InvalidToken) /\
     (~ (ts + ttl < now \/ now + 60 < ts) ->
      decrypt self token (Some ttl) now = decrypt self token None now /\
      decrypt_at_time self token (Some ttl) now
      = decrypt self token None now) /\
     (forall p, decrypt self token None now = Ok p ->
      (decrypt_at_time self token (Some ttl) now = Raise InvalidToken
       <-> ts + ttl < now \/ now + 60 < ts))) /\
  (forall payload T iv token,
     length iv = 16%nat -> 0 <= T <= 2 ^ 64 - 1 ->
     encrypt_at_time self payload T iv = Ok token ->
     decrypt_at_time self token (Some 60) (T + 60) = Ok payload /\
     decrypt_at_time self token (Some 60) (T + 61) = Raise InvalidToken) /\
  (forall payload now ttl iv token,
     length iv = 16%nat -> 0 <= ttl ->
     (0 <= now + 60 <= 2 ^ 64 - 1 ->
      encrypt_at_time self payload (now + 60) iv = Ok token ->
      decrypt_at_time self token (Some ttl) now = Ok payload) /\
     (0 <= now + 61 <= 2 ^ 64 - 1 ->
      encrypt_at_time self payload (now + 61) iv = Ok token ->
      decrypt_at_time self token (Some ttl) now = Raise InvalidToken)).
Proof.
  intros Hi. pose proof (Fernet_init_engine_ok _ _ Hi) as Hf.
  assert (Henc : forall payload T iv token ttl now,
    length iv = 16%nat -> 0 <= T <= 2 ^ 64 - 1 ->
    encrypt_at_time self payload T iv = Ok token ->
    decrypt_at_time self token (Some ttl) now
    = if time_ok T (Some (ttl, now)) then Ok payload else Raise InvalidToken).
  { intros payload T iv token ttl now Hiv HT He.
    unfold encrypt_at_time in He.
    rewrite _encrypt_from_parts_Ok in He by (trivial; lia).
    injection He as <-. unfold decrypt_at_time.
    rewrite _get_unverified_token_data_token by lia. cbn [bind fst snd].
    now apply _decrypt_data_token. }
  split; [|split].
  - intros token ts data ttl now Hp.
    rewrite decrypt_at_time_decrypt. unfold decrypt. rewrite Hp.
    cbn [bind fst snd]. rewrite !_decrypt_data_unfold by trivial.
    unfold time_ok, _MAX_CLOCK_SKEW.
    destruct (Z.ltb_spec (ts + ttl) now), (Z.ltb_spec (now + 60) ts);
      cbn [negb andb]; (split; [|split]); intros; try tauto; try lia; auto;
      try (split; [auto; lia|auto]).
    match goal with H : ?x = Ok _ |- _ => rewrite H end.
    split; [discriminate|lia].
  - intros payload T iv token Hiv HT He.
    rewrite !(Henc payload T iv token) by trivial.
    unfold time_ok, _MAX_CLOCK_SKEW.
    destruct (Z.ltb_spec (T + 60) (T + 60)), (Z.ltb_spec (T + 60 + 60) T),
      (Z.ltb_spec (T + 60) (T + 61)); try lia. auto.
  - intros payload now ttl iv token Hiv Httl. split; intros HT He;
      [rewrite (Henc payload (now + 60) iv token) by trivial
      |rewrite (Henc payload (now + 61) iv token) by trivial];
      unfold time_ok, _MAX_CLOCK_SKEW.
    + destruct (Z.ltb_spec (now + 60 + ttl) now),
        (Z.ltb_spec (now + 60) (now + 60)); try lia. reflexivity.
    + destruct (Z.ltb_spec (now + 60) (now + 61)); try lia.
      now rewrite andb_false_r.
Qed.

Lemma ttl_policy_witness :
  decrypt_at_time ref_engine ref_token (Some 60) (1000 + 60) = Ok hello /\
  decrypt_at_time ref_engine ref_token (Some 60) (1000 + 61)
  = Raise InvalidToken.
Proof.
  destruct (ttl_policy (L := ref_laws) ref_key ref_engine ref_engine_init)
    as (_ & H & _).
  apply (H hello 1000 ref_iv ref_token).
  - reflexivity.
  - lia.
  - vm_compute. reflexivity.
Defined.

(** C4. Every token whose base64url decoding yields fewer than 57 bytes
    (version, timestamp, IV and tag take 1 + 8 + 16 + 32) fails: [decrypt]
    and [decrypt_at_time] raise [InvalidToken] and never return a
    plaintext. *)
Theorem short_token_fails {P : Provider} {L : ProviderLaws P}
  (key : bytes) (self : Fernet) (token data : bytes) :
  Fernet_init key = Ok self ->
  b64decode token = Some data -> (length data < 57)%nat ->
  (forall ttl now, decrypt self token ttl now = Raise InvalidToken) /\
  (forall ttl now,
     decrypt_at_time self token (Some ttl) now = Raise InvalidToken).
Proof.
  intros Hi Hd Hl. pose proof (Fernet_init_engine_ok _ _ Hi) as Hf.
  assert (H : forall ttl now, decrypt self token ttl now = Raise InvalidToken).
  { intros ttl now.
    destruct (decrypt_decoded self token data ttl now Hd)
      as [E|(ts & _ & ->)]; trivial.
    now apply _decrypt_data_short. }
  split; [exact H|].
  intros ttl now. rewrite decrypt_at_time_decrypt. apply H.
Qed.

Lemma short_token_fails_witness :
  decrypt ref_engine short_token None 0 = Raise InvalidToken /\
  decrypt_at_time ref_engine short_token (Some 10) 1005 = Raise InvalidToken.
Proof.
  destruct (short_token_fails (L := ref_laws) ref_key ref_engine short_token
              short_data) as [H1 H2].
  - vm_compute. reflexivity.
  - vm_compute. reflexivity.
  - vm_compute. lia.
  - split; [apply H1 | apply H2].
Defined.

(** C5. Every failure while a token is processed raises the one exception
    [InvalidToken]: for every token and every engine, [decrypt] (and
    [decrypt_at_time] with a ttl) returns a plaintext or raises exactly
    [InvalidToken]; so do malformed base64, a wrong version byte, a missing
    timestamp, a short token, a tag mismatch, a ttl or skew violation, a
    misaligned ciphertext and a bad padding. *)
Theorem only_InvalidToken {P : Provider} {L : ProviderLaws P}
  (key : bytes) (self : Fernet) (token : bytes) :
  Fernet_init key = Ok self ->
  (forall ttl now e, decrypt self token ttl now = Raise e -> e = InvalidToken)
  /\
  (forall ttl now e,
     decrypt_at_time self token (Some ttl) now = Raise e -> e = InvalidToken)
  /\
  (forall ttl now,
     b64decode token = None \/
     (exists data, b64decode token = Some data /\
        (hd_error data <> Some Byte.x80 \/
         (length data < 9)%nat \/
         (length data < 57)%nat \/
         ~ tag_ok self data \/
         (exists ts t, ttl = Some t /\
            unpack_Q (slice data (Some 1) (Some 9)) = Ok ts /\
            (ts + t < now \/ now + 60 < ts)) \/
         (length (ciphertext_field data) mod block_size <> 0)%nat \/
         (exists e, PKCS7_unpad
            (cbc_decrypt (_encryption_key self) (iv_field data)
               (ciphertext_field data)) = Raise e))) ->
     decrypt self token ttl now = Raise InvalidToken).
Proof.
  intros Hi. pose proof (Fernet_init_engine_ok _ _ Hi) as Hf.
  assert (H : forall ttl now e,
            decrypt self token ttl now = Raise e -> e = InvalidToken).
  { intros ttl now e He.
    destruct (decrypt_cases self token ttl now Hf) as [[p Hp]|Hr];
      congruence. }
  split; [exact H|]. split.
  { intros ttl now e. rewrite decrypt_at_time_decrypt. apply H. }
  intros ttl now Hc.
  destruct (decrypt_cases self token ttl now Hf) as [[p Hp]|Hr]; trivial.
  exfalso. unfold decrypt in Hp.
  destruct (_get_unverified_token_data token) as [[ts data]|e] eqn:E;
    [|discriminate].
  apply _get_unverified_token_data_Ok in E as (Hd & Hh & Hu).
  cbn [bind fst snd] in Hp.
  pose proof Hp as Hshort.
  apply _decrypt_data_Ok_tag in Hp as (Htime & Htag & Hbody); trivial.
  destruct Hc as [Hc|(data' & Hd' & Hc)]; [congruence|].
  assert (data' = data) by congruence. subst data'.
  assert (Hlen : ~ (length data < 57)%nat).
  { intros Hl. rewrite _decrypt_data_short in Hshort by trivial.
    discriminate. }
  destruct Hc as [Hc|[Hc|[Hc|[Hc|[Hc|[Hc|Hc]]]]]]; try tauto; try lia.
  - destruct Hc as (ts' & t & -> & Hu' & Ht).
    assert (ts' = ts) by congruence. subst ts'.
    unfold time_ok, _MAX_CLOCK_SKEW in Htime.
    destruct (Z.ltb_spec (ts + t) now), (Z.ltb_spec (now + 60) ts);
      try discriminate; lia.
  - unfold decrypt_body in Hbody. fold (ciphertext_field data) in Hbody.
    destruct (Nat.eqb_spec (length (ciphertext_field data) mod block_size) 0);
      [tauto|discriminate].
  - destruct Hc as [e He]. unfold decrypt_body in Hbody.
    fold (ciphertext_field data) (iv_field data) in Hbody.
    rewrite He in Hbody.
    destruct (_ =? _)%nat; [|discriminate].
    apply PKCS7_unpad_exn in He. subst e. discriminate.
Qed.

Lemma only_InvalidToken_witness :
  decrypt ref_engine tampered_token (Some 10) 1005 = Raise InvalidToken.
Proof.
  destruct (only_InvalidToken (L := ref_laws) ref_key ref_engine
              tampered_token ref_engine_init) as (_ & _ & H).
  apply H. right. exists tampered_data. split.
  - vm_compute. reflexivity.
  - right. right. right. left. vm_compute. discriminate.
Defined.

(** C6. Rotation preserves the issuance time: when some engine of the ring
    decrypts the token (ignoring ttl), [rotate] returns a token, made by the
    first engine, whose [extract_timestamp] is the timestamp every
    decrypting engine extracts from the original, and which the first engine
    decrypts to the plaintext the ring decrypts the original to; when no
    engine decrypts the token, [rotate] raises [InvalidToken]. *)
Theorem rotate_preserves_time {P : Provider} {L : ProviderLaws P}
  (keys : list bytes) (fernets : list Fernet) (self : MultiFernet)
  (msg urandom16 : bytes) :
  built_from keys fernets ->
  MultiFernet_init fernets = Ok self ->
  length urandom16 = 16%nat ->
  ((exists f p, In f fernets /\ decrypt f msg None 0 = Ok p) ->
   exists f0 rest rotated ts p,
     fernets = f0 :: rest /\
     rotate self msg urandom16 = Ok rotated /\
     (forall f p' now, In f fernets -> decrypt f msg None now = Ok p' ->
        extract_timestamp f msg = Ok ts) /\
     extract_timestamp f0 rotated = Ok ts /\
     (forall clock, Multi_decrypt self msg None clock = Ok p) /\
     (forall now, decrypt f0 rotated None now = Ok p)) /\
  ((forall f p, In f fernets -> decrypt f msg None 0 <> Ok p) ->
   rotate self msg urandom16 = Raise InvalidToken).
Proof.
  intros Hb Hi Hiv.
  apply MultiFernet_init_Ok in Hi as (Hfs & f0 & rest & Hne).
  assert (Hok : forall f, In f fernets -> engine_ok f)
    by (intros f; now apply built_from_engine_ok with (keys := keys)).
  unfold rotate, Multi_decrypt, fernets_0. rewrite Hfs.
  destruct (_get_unverified_token_data msg) as [[ts data]|e] eqn:Hp.
  2:{ (* the token does not parse: every engine fails, and so does rotate *)
    destruct (_get_unverified_token_data_cases msg)
      as [(ts & data & E & _)|E]; [congruence|].
    assert (e = InvalidToken) by congruence. subst e.
    split; [|reflexivity].
    intros (f & p & _ & Hd). unfold decrypt in Hd. rewrite Hp in Hd.
    discriminate. }
  cbn [bind fst snd].
  assert (Hdec : forall f now,
            decrypt f msg None now = _decrypt_data f data ts None).
  { intros f now. unfold decrypt. now rewrite Hp. }
  destruct (first_success_cases
              (fun _ f => _decrypt_data f data ts None) fernets 0)
    as [[Hall Hn]|(pre & g & post & p & Hsplit & Hpre & Hg & Hs)].
  { intros j f Hf. apply _decrypt_data_cases. eauto using nth_error_In. }
  - (* no engine decrypts *)
    rewrite Hall. split; [|reflexivity].
    intros (f & p & Hin & Hd). apply In_nth_error in Hin as [j Hj].
    rewrite Hdec, (Hn j f Hj) in Hd. discriminate.
  - (* [g] is the first engine that decrypts *)
    rewrite Hs. cbn [bind]. split.
    2:{ intros Hnone. exfalso. apply (Hnone g p).
        - rewrite Hsplit. apply in_elt.
        - now rewrite Hdec. }
    intros _. rewrite Hne in *.
    pose proof (Hok f0 (or_introl eq_refl)) as Hf0.
    pose proof (unpack_Q_range _ _
      (proj2 (proj2 (_get_unverified_token_data_Ok _ _ _ Hp)))) as Hts.
    exists f0, rest, (b64encode (token_data f0 p ts urandom16)), ts, p.
    split; [reflexivity|]. split; [now apply _encrypt_from_parts_Ok|].
    split; [|split; [|split]].
    + intros f p' now Hin Hd. rewrite Hdec in Hd.
      apply _decrypt_data_Ok_tag in Hd as (_ & Ht & _); auto.
      now apply extract_timestamp_Ok with (data := data).
    + apply extract_timestamp_Ok
        with (data := token_data f0 p ts urandom16).
      * now apply _get_unverified_token_data_token.
      * apply tag_ok_token_data.
    + intros clock. rewrite <- Hs. apply first_success_ext.
      intros j f _. apply Hdec.
    + intros now. unfold decrypt.
      rewrite _get_unverified_token_data_token by trivial.
      cbn [bind fst snd]. now rewrite _decrypt_data_token.
Qed.

Lemma rotate_preserves_time_witness :
  exists f0 rest rotated ts p,
    [new_engine; ref_engine] = f0 :: rest /\
    rotate ref_ring ref_token ref_iv = Ok rotated /\
    (forall f p' now, In f [new_engine; ref_engine] ->
       decrypt f ref_token None now = Ok p' ->
       extract_timestamp f ref_token = Ok ts) /\
    extract_timestamp f0 rotated = Ok ts /\
    (forall clock, Multi_decrypt ref_ring ref_token None clock = Ok p) /\
    (forall now, decrypt f0 rotated None now = Ok p).
Proof.
  apply (proj1 (rotate_preserves_time (L := ref_laws) [new_key; ref_key]
                  [new_engine; ref_engine] ref_ring ref_token ref_iv
                  (Forall2_cons _ _ new_engine_init
                     (Forall2_cons _ _ ref_engine_init (Forall2_nil _)))
                  eq_refl eq_refl)).
  exists ref_engine, hello. split.
  - right. left. reflexivity.
  - vm_compute. reflexivity.
Defined.

(** C7. Ring decryption tries the engines in list order and returns the
    result of the first one that succeeds; it raises [InvalidToken], and
    nothing else, exactly when every engine fails; [decrypt_at_time] is the
    same loop with the given time as every engine's clock; for a ring
    [new, old] a token encrypted under [old] is decrypted (to its payload,
    when [new] rejects it). *)
Theorem ring_decrypt {P : Provider} {L : ProviderLaws P}
  (keys : list bytes) (fernets : list Fernet) (self : MultiFernet)
  (msg : bytes) (ttl : option Z) (clock : nat -> Z) :
  built_from keys fernets ->
  MultiFernet_init fernets = Ok self ->
  (forall pre f post p,
     fernets = pre ++ f :: post ->
     (forall j g, nth_error pre j = Some g ->
        decrypt g msg ttl (clock j) = Raise InvalidToken) ->
     decrypt f msg ttl (clock (length pre)) = Ok p ->
     Multi_decrypt self msg ttl clock = Ok p) /\
  (forall p, Multi_decrypt self msg ttl clock = Ok p ->
     exists pre f post,
       fernets = pre ++ f :: post /\
       (forall j g, nth_error pre j = Some g ->
          decrypt g msg ttl (clock j) = Raise InvalidToken) /\
       decrypt f msg ttl (clock (length pre)) = Ok p) /\
  (Multi_decrypt self msg ttl clock = Raise InvalidToken <->
   forall j f, nth_error fernets j = Some f ->
     decrypt f msg ttl (clock j) = Raise InvalidToken) /\
  (forall e, Multi_decrypt self msg ttl clock = Raise e -> e = InvalidToken)
  /\
  (forall t now,
     Multi_decrypt_at_time self msg (Some t) now
     = Multi_decrypt self msg (Some t) (fun _ => now)) /\
  (forall new old payload T iv,
     fernets = [new; old] ->
     length iv = 16%nat -> 0 <= T <= 2 ^ 64 - 1 ->
     (forall t, ttl = Some t ->
        ~ T + t < clock 1%nat /\ ~ clock 1%nat + 60 < T) ->
     encrypt_at_time old payload T iv = Ok msg ->
     exists p, Multi_decrypt self msg ttl clock = Ok p /\
       (decrypt new msg ttl (clock 0%nat) = Raise InvalidToken ->
        p = payload)).
Proof.
  intros Hb Hi.
  apply MultiFernet_init_Ok in Hi as (Hfs & _).
  assert (Hok : forall f, In f fernets -> engine_ok f)
    by (intros f; now apply built_from_engine_ok with (keys := keys)).
  unfold Multi_decrypt, Multi_decrypt_at_time. rewrite Hfs.
  pose proof (first_success_cases
                (fun i f => decrypt f msg ttl (clock i)) fernets 0
                (fun j f Hf => decrypt_cases f msg ttl (clock j)
                                 (Hok f (nth_error_In _ _ Hf))))
    as Hcases.
  cbn [Nat.add] in Hcases.
  split; [|split; [|split; [|split; [|split]]]].
  - intros pre f post p -> Hpre Hf.
    now apply (first_success_first
                 (fun i f => decrypt f msg ttl (clock i)) pre f post p 0).
  - intros p Hp.
    destruct Hcases as [[Hall _]|(pre & f & post & a & E & Hpre & Hf & Hs)];
      [congruence|].
    exists pre, f, post. assert (a = p) by congruence. subst a. auto.
  - split.
    + intros Hr.
      destruct Hcases as [[_ Hn]|(pre & f & post & a & _ & _ & _ & Hs)];
        [exact Hn|congruence].
    + intros Hn.
      destruct Hcases as [[Hall _]|(pre & f & post & a & E & _ & Hf & _)];
        [exact Hall|].
      rewrite (Hn (length pre)) in Hf; [discriminate|].
      rewrite E, nth_error_app2, Nat.sub_diag by lia. reflexivity.
  - intros e He.
    destruct Hcases as [[Hall _]|(pre & f & post & a & _ & _ & _ & Hs)];
      congruence.
  - intros t now. reflexivity.
  - intros new old payload T iv E Hiv HT Httl He.
    assert (Hold : decrypt old msg ttl (clock 1%nat) = Ok payload).
    { assert (Hin : In old fernets) by (rewrite E; right; now left).
      pose proof (Hok old Hin) as Hf.
      unfold encrypt_at_time in He.
      rewrite _encrypt_from_parts_Ok in He by (trivial; lia).
      injection He as <-. unfold decrypt.
      rewrite _get_unverified_token_data_token by lia. cbn [bind fst snd].
      rewrite _decrypt_data_token by trivial.
      destruct ttl as [t|]; trivial.
      destruct (Httl t eq_refl). unfold time_ok, _MAX_CLOCK_SKEW.
      destruct (Z.ltb_spec (T + t) (clock 1%nat)),
        (Z.ltb_spec (clock 1%nat + 60) T); trivial; lia. }
    rewrite E. cbn [first_success].
    destruct (decrypt_cases new msg ttl (clock 0%nat)) as [[p Hp]|Hr].
    { apply Hok. rewrite E. now left. }
    + rewrite Hp. exists p. split; trivial. discriminate.
    + rewrite Hr, Hold. cbn [isinstance exn_eqb orb]. eauto.
Qed.

Lemma ring_decrypt_witness :
  exists p,
    Multi_decrypt ref_ring ref_token (Some 10) (fun _ => 1005) = Ok p /\
    (decrypt new_engine ref_token (Some 10) 1005 = Raise InvalidToken ->
     p = hello).
Proof.
  destruct (ring_decrypt (L := ref_laws) [new_key; ref_key]
              [new_engine; ref_engine] ref_ring ref_token (Some 10)
              (fun _ => 1005)
              (Forall2_cons _ _ new_engine_init
                 (Forall2_cons _ _ ref_engine_init (Forall2_nil _)))
              eq_refl) as (_ & _ & _ & _ & _ & H).
  apply (H new_engine ref_engine hello 1000 ref_iv).
  - reflexivity.
  - reflexivity.
  - lia.
  - intros t [= <-]. lia.
  - vm_compute. reflexivity.
Defined.

(** C8. [Fernet.__init__] raises exactly when the key does not
    base64url-decode to exactly 32 bytes, and what it raises is a
    [ValueError] ([binascii.Error], its subclass, when the decoding itself
    fails); on success the signing key is bytes 0..15 and the encryption key
    bytes 16..31 of the decoded key.  A key of 31 bytes is rejected. *)
Theorem Fernet_init_spec {P : Provider} (key : bytes) :
  ((exists e, Fernet_init key = Raise e) <->
   ~ exists k, b64decode key = Some k /\ length k = 32%nat) /\
  (forall e, Fernet_init key = Raise e -> isinstance e ValueError = true) /\
  (forall self, Fernet_init key = Ok self ->
     exists k, b64decode key = Some k /\ length k = 32%nat /\
       _signing_key self = firstn 16 k /\
       _encryption_key self = skipn 16 k /\
       k = _signing_key self ++ _encryption_key self /\
       length (_signing_key self) = 16%nat /\
       length (_encryption_key self) = 16%nat) /\
  (forall k, b64decode key = Some k -> length k = 31%nat ->
     Fernet_init key = Raise ValueError).
Proof.
  split; [|split; [|split]].
  - unfold Fernet_init, urlsafe_b64decode.
    destruct (b64decode key) as [k|] eqn:Hd; cbn [bind].
    + destruct (Nat.eqb_spec (length k) 32) as [Hl|Hl]; cbn [negb].
      * split; [intros [e He]; discriminate|].
        intros Hn. exfalso. apply Hn. eauto.
      * split; [|eauto]. intros _ (k' & [= <-] & Hk). contradiction.
    + split; [|eauto]. intros _ (k' & Hk & _). discriminate.
  - unfold Fernet_init, urlsafe_b64decode.
    destruct (b64decode key) as [k|]; cbn [bind].
    + destruct (negb _); [|discriminate]. intros e [= <-]. reflexivity.
    + intros e [= <-]. reflexivity.
  - intros self Hi.
    pose proof (Fernet_init_engine_ok _ _ Hi) as [Hs He].
    apply Fernet_init_Ok in Hi as (k & Hd & Hl & Hsk & Hek).
    exists k. rewrite Hsk, Hek in *. rewrite firstn_skipn. auto 10.
  - intros k Hd Hl. unfold Fernet_init, urlsafe_b64decode.
    rewrite Hd. cbn [bind]. rewrite Hl. reflexivity.
Qed.

Example Fernet_init_31_bytes :
  Fernet_init (ref_b64encode (firstn 31 ref_master_key)) = Raise ValueError.
Proof. vm_compute. reflexivity. Qed.

(** C9. [extract_timestamp] returns the embedded timestamp of every token
    that parses (valid base64, first byte 0x80, 8 timestamp bytes) and whose
    trailing 32 bytes are the MAC of the rest; it neither decrypts nor checks
    a ttl or the padding, so it succeeds on tokens that [decrypt] rejects:
    tokens with no IV field, with a misaligned ciphertext or with a bad
    padding. *)
Theorem extract_timestamp_spec {P : Provider} {L : ProviderLaws P}
  (key : bytes) (self : Fernet) :
  Fernet_init key = Ok self ->
  (forall token data ts,
     b64decode token = Some data -> hd_error data = Some Byte.x80 ->
     unpack_Q (slice data (Some 1) (Some 9)) = Ok ts -> tag_ok self data ->
     extract_timestamp self token = Ok ts) /\
  (forall ts, length ts = 8%nat ->
     let prefix := [Byte.x80] ++ ts in
     let token := b64encode (prefix ++ hmac_sha256 (_signing_key self) prefix)
     in
     extract_timestamp self token = Ok (be_combine ts) /\
     forall ttl now, decrypt self token ttl now = Raise InvalidToken) /\
  (forall ts iv ct,
     length ts = 8%nat -> length iv = 16%nat ->
     (length ct mod block_size <> 0)%nat \/
     (exists e, PKCS7_unpad (cbc_decrypt (_encryption_key self) iv ct)
                = Raise e) ->
     let prefix := signed_prefix ts iv ct in
     let token := b64encode (prefix ++ hmac_sha256 (_signing_key self) prefix)
     in
     extract_timestamp self token = Ok (be_combine ts) /\
     forall ttl now, decrypt self token ttl now = Raise InvalidToken).
Proof.
  intros Hi. pose proof (Fernet_init_engine_ok _ _ Hi) as Hf.
  split; [|split].
  - intros token data ts Hd Hh Hu Ht.
    apply extract_timestamp_Ok with (data := data); trivial.
    now apply _get_unverified_token_data_parse.
  - intros ts Hts prefix token.
    set (tag := hmac_sha256 (_signing_key self) prefix) in *.
    assert (Htag : length tag = 32%nat) by apply hmac_sha256_length.
    assert (Hp : _get_unverified_token_data token
                 = Ok (be_combine ts, prefix ++ tag)).
    { unfold token, prefix. rewrite <- app_assoc.
      now apply _get_unverified_token_data_b64encode. }
    split.
    + apply extract_timestamp_Ok with (data := prefix ++ tag); trivial.
      now apply tag_ok_app.
    + intros ttl now. unfold decrypt. rewrite Hp. cbn [bind fst snd].
      apply _decrypt_data_short; trivial.
      unfold prefix. rewrite !length_app, Hts, Htag. simpl. lia.
  - intros ts iv ct Hts Hiv Hbad prefix token.
    set (tag := hmac_sha256 (_signing_key self) prefix) in *.
    assert (Htag : length tag = 32%nat) by apply hmac_sha256_length.
    assert (Hp : _get_unverified_token_data token
                 = Ok (be_combine ts, prefix ++ tag)).
    { unfold token, prefix, signed_prefix. rewrite <- !app_assoc.
      now apply _get_unverified_token_data_b64encode. }
    split.
    + apply extract_timestamp_Ok with (data := prefix ++ tag); trivial.
      now apply tag_ok_app.
    + intros ttl now. unfold decrypt. rewrite Hp. cbn [bind fst snd].
      unfold tag, prefix. rewrite _decrypt_data_signed by trivial.
      destruct (time_ok _ _); trivial.
      destruct (Nat.eqb_spec (length ct mod block_size) 0) as [Ha|Ha];
        trivial.
      destruct Hbad as [Hbad|[e He]]; [contradiction|].
      rewrite He. apply PKCS7_unpad_exn in He. subst e. reflexivity.
Qed.

(** C10. Without a ttl, [decrypt] checks no time: a token whose tag
    verifies and whose ciphertext decrypts to a valid padding is decrypted
    whatever its timestamp and the clock are; so is every token of
    [encrypt_at_time], however far its time is from the clock's. *)
Theorem no_ttl_no_time_check {P : Provider} {L : ProviderLaws P}
  (key : bytes) (self : Fernet) :
  Fernet_init key = Ok self ->
  (forall token ts data p now,
     _get_unverified_token_data token = Ok (ts, data) ->
     tag_ok self data ->
     (length (ciphertext_field data) mod block_size = 0)%nat ->
     PKCS7_unpad (cbc_decrypt (_encryption_key self) (iv_field data)
                    (ciphertext_field data)) = Ok p ->
     decrypt self token None now = Ok p) /\
  (forall payload T iv token now,
     length iv = 16%nat -> 0 <= T <= 2 ^ 64 - 1 ->
     encrypt_at_time self payload T iv = Ok token ->
     decrypt self token None now = Ok payload).
Proof.
  intros Hi. pose proof (Fernet_init_engine_ok _ _ Hi) as Hf. split.
  - intros token ts data p now Hp Ht Ha Hu.
    unfold decrypt. rewrite Hp. cbn [bind fst snd].
    rewrite _decrypt_data_unfold by trivial. cbn [time_ok].
    destruct (_verify_signature_cases self data) as [[-> _]|[_ Hn]];
      [|tauto].
    unfold decrypt_body. fold (ciphertext_field data) (iv_field data).
    rewrite Ha, Hu. reflexivity.
  - intros payload T iv token now Hiv HT He.
    unfold encrypt_at_time in He.
    rewrite _encrypt_from_parts_Ok in He by (trivial; lia).
    injection He as <-. unfold decrypt.
    rewrite _get_unverified_token_data_token by lia. cbn [bind fst snd].
    now rewrite _decrypt_data_token.
Qed.

Lemma extract_timestamp_spec_witness :
  (extract_timestamp ref_engine short_token = Ok 1000 /\
   decrypt ref_engine short_token None 0 = Raise InvalidToken) /\
  (extract_timestamp ref_engine misaligned_token = Ok 1000 /\
   decrypt ref_engine misaligned_token None 0 = Raise InvalidToken) /\
  (extract_timestamp ref_engine bad_padding_token = Ok 1000 /\
   decrypt ref_engine bad_padding_token None 0 = Raise InvalidToken).
Proof.
  destruct (extract_timestamp_spec (L := ref_laws) ref_key ref_engine
              ref_engine_init) as (_ & Hshort & Hbad).
  split; [|split].
  - destruct (Hshort (be_split 8 1000) eq_refl) as [H1 H2].
    split; [exact H1 | exact (H2 None 0)].
  - destruct (Hbad (be_split 8 1000) ref_iv [Byte.x00] eq_refl eq_refl)
      as [H1 H2].
    + left. vm_compute. discriminate.
    + split; [exact H1 | exact (H2 None 0)].
  - destruct (Hbad (be_split 8 1000) ref_iv
                (ref_cbc_encrypt (_encryption_key ref_engine) ref_iv
                   (repeat Byte.x00 16)) eq_refl eq_refl) as [H1 H2].
    + right. exists ValueError. vm_compute. reflexivity.
    + split; [exact H1 | exact (H2 None 0)].
Defined.

Lemma no_ttl_no_time_check_witness :
  decrypt ref_engine ref_token None (10 ^ 12) = Ok hello /\
  (forall token,
     encrypt_at_time ref_engine hello (2 ^ 64 - 1) ref_iv = Ok token ->
     decrypt ref_engine token None 0 = Ok hello).
Proof.
  destruct (no_ttl_no_time_check (L := ref_laws) ref_key ref_engine
              ref_engine_init) as [_ H].
  split.
  - apply (H hello 1000 ref_iv ref_token (10 ^ 12)).
    + reflexivity.
    + lia.
    + vm_compute. reflexivity.
  - intros token He.
    apply (H hello (2 ^ 64 - 1) ref_iv token 0); [reflexivity|lia|exact He].
Defined.

(** * Further properties of [fernet.py] *)

Section MoreFacts.
Context {P : Provider}.

Lemma length_PKCS7_pad data :
  length (PKCS7_pad data) = (block_size * (length data / block_size + 1))%nat.
Proof.
  unfold PKCS7_pad. rewrite length_app, repeat_length.
  pose proof (pad_amount (length data)).
  pose proof (Nat.div_mod_eq (length data) block_size). lia.
Qed.

(** What a successful [_encrypt_from_parts] tells about its arguments. *)
Lemma _encrypt_from_parts_inv self data current_time iv token :
  _encrypt_from_parts self data current_time iv = Ok token ->
  length iv = 16%nat /\ 0 <= current_time < 2 ^ 64 /\
  token = b64encode (token_data self data current_time iv).
Proof.
  unfold _encrypt_from_parts, Cipher_AES_CBC.
  destruct (negb _); [discriminate|].
  destruct (Nat.eqb_spec (length iv) block_size) as [Hiv|Hiv];
    cbn [negb bind]; [|discriminate].
  unfold encryptor_finalize, encryptor_update.
  rewrite PKCS7_pad_aligned. cbn [Nat.eqb bind fst snd].
  unfold pack_Q.
  destruct (Z.leb_spec 0 current_time), (Z.ltb_spec current_time (2 ^ 64));
    cbn [andb bind]; try discriminate.
  rewrite app_nil_r, firstn_whole_blocks by apply PKCS7_pad_aligned.
  intros [= <-]. repeat split; trivial.
Qed.

Lemma slice_1_9 (data : bytes) :
  (9 <= length data)%nat ->
  slice data (Some 1) (Some 9) = firstn 8 (skipn 1 data).
Proof.
  intros H. unfold slice, clamp_index, len.
  replace (Z.to_nat (Z.min 1 _)) with 1%nat by lia.
  replace (Z.to_nat (Z.min 9 _)) with 9%nat by lia.
  reflexivity.
Qed.

Lemma length_slice_neg {A} (l : list A) (i j : Z) :
  0 <= i -> 0 < j ->
  length (slice l (Some i) (Some (- j))) = Z.to_nat (len l - j - i).
Proof.
  intros Hi Hj. unfold slice, clamp_index, len.
  destruct (Z.ltb_spec i 0); [lia|].
  destruct (Z.ltb_spec (- j) 0); [|lia].
  rewrite length_firstn, length_skipn. lia.
Qed.

Lemma first_success_app_Ok {A} (attempt : nat -> Fernet -> result A)
  fernets extra a :
  forall i, first_success attempt i fernets = Ok a ->
            first_success attempt i (fernets ++ extra) = Ok a.
Proof.
  induction fernets as [|f rest IH]; intros i; cbn [first_success app];
    [discriminate|].
  destruct (attempt i f) as [b|e]; trivial.
  destruct (isinstance e InvalidToken); [apply IH|discriminate].
Qed.

Lemma first_success_all_fail {A} (attempt : nat -> Fernet -> result A)
  fernets :
  (forall j f, attempt j f = Raise InvalidToken) ->
  forall i, first_success attempt i fernets = Raise InvalidToken.
Proof.
  intros H. induction fernets as [|f rest IH]; intros i;
    cbn [first_success]; trivial.
  rewrite H. cbn [isinstance exn_eqb orb]. apply IH.
Qed.

(** The time tests come first: a timestamp outside the window is rejected
    by every engine, whatever its keys are. *)
Lemma decrypt_time_rejected self token ts data ttl now :
  _get_unverified_token_data token = Ok (ts, data) ->
  ts + ttl < now \/ now + 60 < ts ->
  decrypt self token (Some ttl) now = Raise InvalidToken.
Proof.
  intros Hp Hv. unfold decrypt. rewrite Hp. cbn [bind fst snd].
  unfold _decrypt_data, _MAX_CLOCK_SKEW.
  destruct (Z.ltb_spec (ts + ttl) now); trivial.
  destruct (Z.ltb_spec (now + 60) ts); trivial. lia.
Qed.

End MoreFacts.

(** X1. The wire format: the token of [encrypt_at_time] is the base64url
    coding of the version byte 0x80, the time as 8 big-endian bytes, the 16
    bytes of the IV, a ciphertext of [16 * (len(payload) // 16 + 1)] bytes
    and the 32-byte MAC of all that comes before it. *)
Theorem token_layout {P : Provider} {L : ProviderLaws P}
  (key : bytes) (self : Fernet) (payload : bytes) (T : Z) (iv token : bytes) :
  Fernet_init key = Ok self ->
  encrypt_at_time self payload T iv = Ok token ->
  exists ciphertext tag,
    token = b64encode
              ([Byte.x80] ++ be_split 8 T ++ iv ++ ciphertext ++ tag) /\
    b64decode token
    = Some ([Byte.x80] ++ be_split 8 T ++ iv ++ ciphertext ++ tag) /\
    length (be_split 8 T) = 8%nat /\ be_combine (be_split 8 T) = T /\
    length iv = 16%nat /\
    length ciphertext = (16 * (length payload / 16 + 1))%nat /\
    length tag = 32%nat /\
    tag = hmac_sha256 (_signing_key self)
            ([Byte.x80] ++ be_split 8 T ++ iv ++ ciphertext).
Proof.
  intros Hi He. pose proof (Fernet_init_engine_ok _ _ Hi) as [_ Hk].
  apply _encrypt_from_parts_inv in He as (Hiv & HT & ->).
  exists (cbc_encrypt (_encryption_key self) iv (PKCS7_pad payload)).
  eexists. unfold token_data, signed_prefix. cbv zeta.
  rewrite <- !app_assoc. split; [reflexivity|].
  rewrite b64decode_b64encode. split; [reflexivity|].
  split; [apply length_be_split|]. split; [now apply be_combine_split|].
  split; [exact Hiv|]. split.
  - rewrite cbc_encrypt_length; trivial; [|apply PKCS7_pad_aligned].
    apply length_PKCS7_pad.
  - split; [apply hmac_sha256_length|reflexivity].
Qed.

Lemma token_layout_witness :
  exists ciphertext tag,
    ref_token = b64encode
      ([Byte.x80] ++ be_split 8 1000 ++ ref_iv ++ ciphertext ++ tag) /\
    b64decode ref_token
    = Some ([Byte.x80] ++ be_split 8 1000 ++ ref_iv ++ ciphertext ++ tag) /\
    length (be_split 8 1000) = 8%nat /\
    be_combine (be_split 8 1000) = 1000 /\
    length ref_iv = 16%nat /\
    length ciphertext = (16 * (length hello / 16 + 1))%nat /\
    length tag = 32%nat /\
    tag = hmac_sha256 (_signing_key ref_engine)
            ([Byte.x80] ++ be_split 8 1000 ++ ref_iv ++ ciphertext).
Proof.
  apply (token_layout (L := ref_laws) ref_key ref_engine hello 1000 ref_iv
           ref_token ref_engine_init).
  vm_compute. reflexivity.
Defined.

(** X2. [_encrypt_from_parts] on an engine of the constructor succeeds
    exactly when the IV has 16 bytes and the time fits 64 unsigned bits; a
    wrong IV length raises [ValueError] (whatever the time is), a time out
    of range [struct.error]; it never raises [InvalidToken]. *)
Theorem encrypt_errors {P : Provider}
  (key : bytes) (self : Fernet) (payload : bytes) (T : Z) (iv : bytes) :
  Fernet_init key = Ok self ->
  (length iv <> 16%nat ->
   _encrypt_from_parts self payload T iv = Raise ValueError) /\
  (length iv = 16%nat -> ~ 0 <= T <= 2 ^ 64 - 1 ->
   _encrypt_from_parts self payload T iv = Raise struct_error /\
   encrypt_at_time self payload T iv = Raise struct_error) /\
  ((exists token, _encrypt_from_parts self payload T iv = Ok token) <->
   length iv = 16%nat /\ 0 <= T <= 2 ^ 64 - 1) /\
  _encrypt_from_parts self payload T iv <> Raise InvalidToken.
Proof.
  intros Hi. pose proof (Fernet_init_engine_ok _ _ Hi) as Hf.
  assert (Hbad : length iv <> 16%nat ->
                 _encrypt_from_parts self payload T iv = Raise ValueError).
  { intros Hiv. unfold _encrypt_from_parts, Cipher_AES_CBC.
    destruct Hf as [_ ->]. cbn [Nat.eqb orb negb].
    destruct (Nat.eqb_spec (length iv) block_size); [contradiction|].
    reflexivity. }
  assert (Hrange : length iv = 16%nat -> ~ 0 <= T <= 2 ^ 64 - 1 ->
                   _encrypt_from_parts self payload T iv = Raise struct_error).
  { intros Hiv HT. unfold _encrypt_from_parts.
    rewrite Cipher_AES_CBC_Ok by (trivial; apply Hf). cbn [bind].
    unfold encryptor_finalize. rewrite PKCS7_pad_aligned.
    cbn [Nat.eqb bind]. unfold pack_Q.
    destruct (Z.leb_spec 0 T), (Z.ltb_spec T (2 ^ 64)); cbn [andb bind];
      trivial; lia. }
  split; [exact Hbad|]. split; [auto|]. split.
  - split.
    + intros [token He]. apply _encrypt_from_parts_inv in He. lia.
    + intros [Hiv HT]. eexists.
      apply _encrypt_from_parts_Ok; trivial. lia.
  - destruct (Nat.eq_dec (length iv) 16) as [Hiv|Hiv].
    + destruct (Z_le_dec 0 T) as [H0|H0];
        [destruct (Z_le_dec T (2 ^ 64 - 1)) as [H1|H1]|].
      * rewrite _encrypt_from_parts_Ok by (trivial; lia). discriminate.
      * rewrite Hrange by (trivial; lia). discriminate.
      * rewrite Hrange by (trivial; lia). discriminate.
    + rewrite Hbad by trivial. discriminate.
Qed.

Lemma encrypt_errors_witness :
  _encrypt_from_parts ref_engine hello 1000 [Byte.x00] = Raise ValueError /\
  _encrypt_from_parts ref_engine hello (2 ^ 64) ref_iv = Raise struct_error /\
  _encrypt_from_parts ref_engine hello (-1) ref_iv = Raise struct_error.
Proof.
  split; [|split].
  - apply (encrypt_errors ref_key ref_engine hello 1000 [Byte.x00]
             ref_engine_init).
    discriminate.
  - apply (encrypt_errors ref_key ref_engine hello (2 ^ 64) ref_iv
             ref_engine_init); [reflexivity|lia].
  - apply (encrypt_errors ref_key ref_engine hello (-1) ref_iv
             ref_engine_init); [reflexivity|lia].
Defined.

(** X3. A key of [generate_key] is always accepted by the constructor: the
    engine's signing key is the first half and its encryption key the second
    half of the 32 random bytes. *)
Theorem generate_key_accepted {P : Provider} {L : ProviderLaws P}
  (urandom32 : bytes) :
  length urandom32 = 32%nat ->
  Fernet_init (generate_key urandom32)
  = Ok {| _signing_key := firstn 16 urandom32;
          _encryption_key := skipn 16 urandom32 |}.
Proof.
  intros Hl. unfold Fernet_init, generate_key, urlsafe_b64decode.
  rewrite b64decode_b64encode. cbn [bind]. rewrite Hl. cbn [Nat.eqb negb].
  unfold slice, len. rewrite Hl.
  change (clamp_index (Z.of_nat 32) 16) with 16%nat.
  rewrite Nat.sub_0_r.
  assert (E : firstn (32 - 16) (skipn 16 urandom32) = skipn 16 urandom32)
    by (apply firstn_all2; rewrite length_skipn; lia).
  rewrite E. reflexivity.
Qed.

Lemma generate_key_accepted_witness :
  Fernet_init (generate_key ref_master_key) = Ok ref_engine.
Proof.
  apply (generate_key_accepted (L := ref_laws) ref_master_key).
  reflexivity.
Defined.

(** X4. [_get_unverified_token_data] returns [(ts, data)] exactly when the
    token base64url-decodes to [data], [data] starts with 0x80 and has at
    least 9 bytes, and [ts] is the big-endian value of bytes 1..8, a number
    in [0 .. 2^64-1]; in every other case it raises [InvalidToken]. *)
Theorem parse_token_iff {P : Provider} (token : bytes) :
  (forall ts data,
     _get_unverified_token_data token = Ok (ts, data) <->
     b64decode token = Some data /\ hd_error data = Some Byte.x80 /\
     (9 <= length data)%nat /\
     ts = be_combine (firstn 8 (skipn 1 data))) /\
  (forall ts data,
     _get_unverified_token_data token = Ok (ts, data) -> 0 <= ts < 2 ^ 64) /\
  (forall e, _get_unverified_token_data token = Raise e -> e = InvalidToken).
Proof.
  assert (Hlen : forall data : bytes,
            length (slice data (Some 1) (Some 9)) = 8%nat ->
            (9 <= length data)%nat).
  { intros data. unfold slice, clamp_index, len. cbn [Z.ltb Z.compare].
    rewrite length_firstn, length_skipn. lia. }
  split; [|split].
  - intros ts data. split.
    + intros H. apply _get_unverified_token_data_Ok in H as (Hd & Hh & Hu).
      unfold unpack_Q in Hu.
      destruct (Nat.eqb_spec (length (slice data (Some 1) (Some 9))) 8)
        as [E|E]; [|discriminate].
      apply Hlen in E. rewrite slice_1_9 in Hu by trivial.
      injection Hu as <-. auto.
    + intros (Hd & Hh & Hl & ->).
      apply _get_unverified_token_data_parse; trivial.
      rewrite slice_1_9 by trivial. unfold unpack_Q.
      rewrite length_firstn, length_skipn.
      replace (Nat.min 8 (length data - 1)) with 8%nat by lia.
      reflexivity.
  - intros ts data H.
    apply _get_unverified_token_data_Ok in H as (_ & _ & Hu).
    now apply unpack_Q_range in Hu.
  - intros e He.
    destruct (_get_unverified_token_data_cases token)
      as [(ts & data & E & _)|E]; congruence.
Qed.

(** X5. [extract_timestamp] reads back the time of encryption: on a token
    made by [encrypt_at_time] at [T] it returns [T]. *)
Theorem extract_timestamp_encrypt {P : Provider} {L : ProviderLaws P}
  (key : bytes) (self : Fernet) (payload : bytes) (T : Z) (iv token : bytes) :
  Fernet_init key = Ok self ->
  encrypt_at_time self payload T iv = Ok token ->
  extract_timestamp self token = Ok T.
Proof.
  intros Hi He. apply _encrypt_from_parts_inv in He as (Hiv & HT & ->).
  apply extract_timestamp_Ok with (data := token_data self payload T iv).
  - now apply _get_unverified_token_data_token.
  - apply tag_ok_token_data.
Qed.

Lemma extract_timestamp_encrypt_witness :
  extract_timestamp ref_engine ref_token = Ok 1000.
Proof.
  apply (extract_timestamp_encrypt (L := ref_laws) ref_key ref_engine hello
           1000 ref_iv ref_token ref_engine_init).
  vm_compute. reflexivity.
Defined.

(** X6. Every timestamp [extract_timestamp] returns lies in [0 .. 2^64-1]
    and belongs to a token whose tag verifies under the engine's signing
    key; the only exception it raises is [InvalidToken]. *)
Theorem extract_timestamp_result {P : Provider} (self : Fernet)
  (token : bytes) :
  (forall ts, extract_timestamp self token = Ok ts ->
     0 <= ts < 2 ^ 64 /\
     exists data, _get_unverified_token_data token = Ok (ts, data) /\
                  tag_ok self data) /\
  (forall e, extract_timestamp self token = Raise e -> e = InvalidToken).
Proof.
  unfold extract_timestamp.
  destruct (_get_unverified_token_data_cases token)
    as [(ts & data & E & _ & _ & Hu)|E]; rewrite E; cbn [bind fst snd].
  - destruct (_verify_signature_cases self data) as [[-> Ht]|[-> _]];
      cbn [bind]; split; try discriminate.
    + intros ts' [= <-]. split; [now apply unpack_Q_range in Hu|eauto].
    + now intros e [= <-].
  - split; [discriminate|]. now intros e [= <-].
Qed.

(** X7. Whenever [decrypt] returns a plaintext, [extract_timestamp] returns
    the token's timestamp, and under a ttl that timestamp lies in the
    window [now - ttl .. now + 60]. *)
Theorem decrypt_implies_timestamp {P : Provider} {L : ProviderLaws P}
  (key : bytes) (self : Fernet) (token : bytes) (ttl : option Z) (now : Z)
  (p : bytes) :
  Fernet_init key = Ok self ->
  decrypt self token ttl now = Ok p ->
  exists ts, extract_timestamp self token = Ok ts /\
             (forall t, ttl = Some t -> now - t <= ts <= now + 60).
Proof.
  intros Hi Hd. pose proof (Fernet_init_engine_ok _ _ Hi) as Hf.
  unfold decrypt in Hd.
  destruct (_get_unverified_token_data token) as [[ts data]|e] eqn:Hp;
    [|discriminate].
  cbn [bind fst snd] in Hd.
  apply _decrypt_data_Ok_tag in Hd as (Htime & Ht & _); trivial.
  exists ts. split; [now apply extract_timestamp_Ok with (data := data)|].
  intros t ->. unfold time_ok, _MAX_CLOCK_SKEW in Htime.
  destruct (Z.ltb_spec (ts + t) now), (Z.ltb_spec (now + 60) ts);
    try discriminate; lia.
Qed.

Lemma decrypt_implies_timestamp_witness :
  exists ts, extract_timestamp ref_engine ref_token = Ok ts /\
             (forall t, Some 10 = Some t -> 1005 - t <= ts <= 1005 + 60).
Proof.
  apply (decrypt_implies_timestamp (L := ref_laws) ref_key ref_engine
           ref_token (Some 10) 1005 hello ref_engine_init).
  vm_compute. reflexivity.
Defined.

(** X8. A longer ttl never rejects what a shorter one accepts: a token
    decrypted under ttl [t] decrypts to the same plaintext under every
    [t' >= t] at the same clock, and with no ttl at all. *)
Theorem ttl_monotone {P : Provider} (self : Fernet) (token : bytes)
  (t t' now : Z) (p : bytes) :
  decrypt self token (Some t) now = Ok p -> t <= t' ->
  decrypt self token (Some t') now = Ok p /\
  decrypt_at_time self token (Some t') now = Ok p /\
  (forall now', decrypt self token None now' = Ok p).
Proof.
  intros Hd Ht. unfold decrypt_at_time, decrypt in *.
  destruct (_get_unverified_token_data token) as [[ts data]|e];
    [|discriminate].
  cbn [bind fst snd] in *. unfold _decrypt_data in *.
  destruct (Z.ltb_spec (ts + t) now); [discriminate|].
  destruct (Z.ltb_spec (now + _MAX_CLOCK_SKEW) ts); [discriminate|].
  destruct (Z.ltb_spec (ts + t') now); [lia|]. auto.
Qed.

Lemma ttl_monotone_witness :
  decrypt ref_engine ref_token (Some 20) 1005 = Ok hello /\
  decrypt_at_time ref_engine ref_token (Some 20) 1005 = Ok hello /\
  (forall now', decrypt ref_engine ref_token None now' = Ok hello).
Proof.
  apply (ttl_monotone ref_engine ref_token 10 20 1005 hello).
  - vm_compute. reflexivity.
  - lia.
Defined.

(** X9. A ttl below [-60] rejects every token at every clock: the expiry and
    the clock-skew tests leave no timestamp between them. *)
Theorem ttl_below_skew_rejects_all {P : Provider} (self : Fernet)
  (token : bytes) (t now : Z) :
  t < - _MAX_CLOCK_SKEW ->
  decrypt self token (Some t) now = Raise InvalidToken /\
  decrypt_at_time self token (Some t) now = Raise InvalidToken.
Proof.
  intros Ht. unfold decrypt_at_time, decrypt, _MAX_CLOCK_SKEW in *.
  destruct (_get_unverified_token_data_cases token)
    as [(ts & data & E & _)|E]; rewrite E; cbn [bind fst snd]; auto.
  unfold _decrypt_data, _MAX_CLOCK_SKEW.
  destruct (Z.ltb_spec (ts + t) now); auto.
  destruct (Z.ltb_spec (now + 60) ts); auto. lia.
Qed.

Lemma ttl_below_skew_rejects_all_witness :
  decrypt ref_engine ref_token (Some (-61)) 1000 = Raise InvalidToken /\
  decrypt_at_time ref_engine ref_token (Some (-61)) 1000
  = Raise InvalidToken.
Proof.
  apply (ttl_below_skew_rejects_all ref_engine ref_token (-61) 1000).
  reflexivity.
Defined.

(** X10. The size of what decrypts: a token that [decrypt] accepts decodes
    to [73 + 16 k] bytes for some [k] (one ciphertext block at least), and
    its plaintext has between [16 k] and [16 k + 15] bytes. *)
Theorem decrypted_token_size {P : Provider} {L : ProviderLaws P}
  (key : bytes) (self : Fernet) (token data : bytes) (ttl : option Z)
  (now : Z) (p : bytes) :
  Fernet_init key = Ok self ->
  b64decode token = Some data ->
  decrypt self token ttl now = Ok p ->
  exists k : nat,
    length data = (73 + 16 * k)%nat /\
    (16 * k <= length p <= 16 * k + 15)%nat.
Proof.
  intros Hi Hdec Hd. pose proof (Fernet_init_engine_ok _ _ Hi) as Hf.
  destruct (decrypt_decoded self token data ttl now Hdec)
    as [E|(ts & _ & E)]; rewrite E in Hd; [discriminate|].
  apply _decrypt_data_Ok_tag in Hd as (_ & Ht & Hb); trivial.
  apply tag_ok_length in Ht. unfold decrypt_body in Hb.
  fold (ciphertext_field data) (iv_field data) in Hb.
  destruct (Nat.eqb_spec (length (ciphertext_field data) mod block_size) 0)
    as [Ha|Ha]; [|discriminate].
  assert (Hiv : length (iv_field data) = 16%nat).
  { apply Nat2Z.inj. apply (length_slice data 9 25); lia. }
  pose proof (cbc_decrypt_length (_encryption_key self) (iv_field data)
                (ciphertext_field data) (proj2 Hf) Hiv Ha) as Hc.
  set (padded := cbc_decrypt _ _ _) in *.
  assert (Hct : length (ciphertext_field data)
                = Z.to_nat (len data - 32 - 25)).
  { unfold ciphertext_field. change (-32) with (Z.opp 32).
    apply length_slice_neg; lia. }
  unfold PKCS7_unpad in Hb.
  destruct (Nat.eqb_spec (length padded) 0) as [H0|H0];
    [discriminate|]. rewrite Hc, Ha in Hb. cbn [Nat.eqb negb orb] in Hb.
  set (n := Z.to_nat (byte.unsigned (last padded Byte.x00))) in *.
  destruct (Nat.eqb_spec n 0) as [Hn0|Hn0]; [discriminate|].
  destruct (Nat.ltb_spec block_size n) as [Hn1|Hn1]; [discriminate|].
  cbn [orb] in Hb.
  destruct (forallb _ _); [|discriminate].
  cbn [try_except] in Hb. injection Hb as <-.
  rewrite length_firstn.
  pose proof (Nat.div_mod_eq (length (ciphertext_field data)) block_size)
    as Hdiv.
  rewrite Ha in Hdiv. unfold block_size, len in *.
  exists (length (ciphertext_field data) / 16 - 1)%nat.
  split; lia.
Qed.

Lemma decrypted_token_size_witness :
  exists k : nat,
    length (token_data ref_engine hello 1000 ref_iv) = (73 + 16 * k)%nat /\
    (16 * k <= length hello <= 16 * k + 15)%nat.
Proof.
  apply (decrypted_token_size (L := ref_laws) ref_key ref_engine ref_token
           (token_data ref_engine hello 1000 ref_iv) None 0 hello
           ref_engine_init).
  - vm_compute. reflexivity.
  - vm_compute. reflexivity.
Defined.

(** X11. A missing ttl is a usage error that the ring does not swallow:
    [decrypt_at_time] with [ttl = None] raises [ValueError] on an engine,
    and on a ring the loop lets it through instead of raising
    [InvalidToken], whatever the token is. *)
Theorem decrypt_at_time_needs_ttl {P : Provider} (fernets : list Fernet)
  (self : MultiFernet) (msg : bytes) (current_time : Z) :
  MultiFernet_init fernets = Ok self ->
  Multi_decrypt_at_time self msg None current_time = Raise ValueError /\
  (forall f, In f fernets ->
     decrypt_at_time f msg None current_time = Raise ValueError).
Proof.
  intros Hi. apply MultiFernet_init_Ok in Hi as (Hfs & f0 & rest & ->).
  unfold Multi_decrypt_at_time. rewrite Hfs. split; reflexivity.
Qed.

Lemma decrypt_at_time_needs_ttl_witness :
  Multi_decrypt_at_time ref_ring ref_token None 1005 = Raise ValueError /\
  (forall f, In f [new_engine; ref_engine] ->
     decrypt_at_time f ref_token None 1005 = Raise ValueError).
Proof.
  apply (decrypt_at_time_needs_ttl [new_engine; ref_engine] ref_ring
           ref_token 1005).
  reflexivity.
Defined.

(** X12. Ring round trip: a ring encrypts with its first engine, and the
    ring as well as that engine decrypt the token to the payload (with no
    ttl, or with a ttl that the first clock reading satisfies). *)
Theorem ring_round_trip {P : Provider} {L : ProviderLaws P}
  (keys : list bytes) (fernets : list Fernet) (self : MultiFernet)
  (payload : bytes) (T : Z) (urandom16 : bytes) (ttl : option Z)
  (clock : nat -> Z) :
  built_from keys fernets ->
  MultiFernet_init fernets = Ok self ->
  length urandom16 = 16%nat ->
  0 <= T <= 2 ^ 64 - 1 ->
  (forall t, ttl = Some t ->
     ~ T + t < clock 0%nat /\ ~ clock 0%nat + 60 < T) ->
  exists f0 token,
    hd_error fernets = Some f0 /\
    Multi_encrypt_at_time self payload T urandom16 = Ok token /\
    Multi_encrypt self payload T urandom16 = Ok token /\
    encrypt_at_time f0 payload T urandom16 = Ok token /\
    Multi_decrypt self token ttl clock = Ok payload /\
    decrypt f0 token ttl (clock 0%nat) = Ok payload.
Proof.
  intros Hb Hi Hiv HT Httl.
  apply MultiFernet_init_Ok in Hi as (Hfs & f0 & rest & ->).
  pose proof (built_from_engine_ok keys _ f0 Hb (or_introl eq_refl)) as Hf.
  exists f0, (b64encode (token_data f0 payload T urandom16)).
  assert (He : encrypt_at_time f0 payload T urandom16
               = Ok (b64encode (token_data f0 payload T urandom16))).
  { unfold encrypt_at_time. apply _encrypt_from_parts_Ok; trivial. lia. }
  assert (Hd : decrypt f0 (b64encode (token_data f0 payload T urandom16))
                 ttl (clock 0%nat) = Ok payload).
  { unfold decrypt.
    rewrite _get_unverified_token_data_token by lia. cbn [bind fst snd].
    rewrite _decrypt_data_token by trivial.
    destruct ttl as [t|]; trivial.
    destruct (Httl t eq_refl). unfold time_ok, _MAX_CLOCK_SKEW.
    destruct (Z.ltb_spec (T + t) (clock 0%nat)),
      (Z.ltb_spec (clock 0%nat + 60) T); trivial; lia. }
  unfold Multi_encrypt, Multi_encrypt_at_time, Multi_decrypt, fernets_0.
  rewrite Hfs. cbn [bind hd_error first_success]. rewrite He, Hd.
  repeat split; reflexivity.
Qed.

Lemma ring_round_trip_witness :
  exists f0 token,
    hd_error [new_engine; ref_engine] = Some f0 /\
    Multi_encrypt_at_time ref_ring hello 1000 ref_iv = Ok token /\
    Multi_encrypt ref_ring hello 1000 ref_iv = Ok token /\
    encrypt_at_time f0 hello 1000 ref_iv = Ok token /\
    Multi_decrypt ref_ring token (Some 10) (fun _ => 1005) = Ok hello /\
    decrypt f0 token (Some 10) 1005 = Ok hello.
Proof.
  apply (ring_round_trip (L := ref_laws) [new_key; ref_key]
           [new_engine; ref_engine] ref_ring hello 1000 ref_iv (Some 10)
           (fun _ => 1005)
           (Forall2_cons _ _ new_engine_init
              (Forall2_cons _ _ ref_engine_init (Forall2_nil _)))
           eq_refl eq_refl).
  - lia.
  - intros t [= <-]. lia.
Defined.

(** X13. A ring of a single engine behaves as that engine: [decrypt] and
    [decrypt_at_time] give the engine's result, value or exception. *)
Theorem singleton_ring {P : Provider} {L : ProviderLaws P}
  (key : bytes) (f : Fernet) (self : MultiFernet) (msg : bytes)
  (ttl : option Z) (clock : nat -> Z) :
  Fernet_init key = Ok f ->
  MultiFernet_init [f] = Ok self ->
  Multi_decrypt self msg ttl clock = decrypt f msg ttl (clock 0%nat) /\
  (forall t now,
     Multi_decrypt_at_time self msg (Some t) now
     = decrypt_at_time f msg (Some t) now).
Proof.
  intros Hi Hm. pose proof (Fernet_init_engine_ok _ _ Hi) as Hf.
  injection Hm as <-.
  unfold Multi_decrypt, Multi_decrypt_at_time.
  cbn [_fernets first_success].
  assert (H : forall o now,
    match decrypt f msg o now with
    | Ok a => Ok a
    | Raise e => if isinstance e InvalidToken then Raise InvalidToken
                 else Raise e
    end = decrypt f msg o now).
  { intros o now.
    destruct (decrypt_cases f msg o now Hf) as [[p E]|E]; rewrite E;
      reflexivity. }
  split; [apply H|]. intros t now. apply (H (Some t) now).
Qed.

Lemma singleton_ring_witness :
  Multi_decrypt {| _fernets := [ref_engine] |} ref_token (Some 10)
    (fun _ => 1005)
  = decrypt ref_engine ref_token (Some 10) 1005 /\
  (forall t now,
     Multi_decrypt_at_time {| _fernets := [ref_engine] |} ref_token
       (Some t) now
     = decrypt_at_time ref_engine ref_token (Some t) now).
Proof.
  apply (singleton_ring (L := ref_laws) ref_key ref_engine
           {| _fernets := [ref_engine] |} ref_token (Some 10)
           (fun _ => 1005) ref_engine_init eq_refl).
Defined.

(** X14. Growing a ring keeps what it decrypts: engines appended at the end
    never change a successful result, and an engine put in front that
    rejects the token leaves the result (value or exception) of the ring
    behind it, which then reads the clock one attempt later. *)
Theorem ring_grow {P : Provider} (fernets : list Fernet) (msg : bytes)
  (ttl : option Z) (clock : nat -> Z) :
  (forall more p,
     Multi_decrypt {| _fernets := fernets |} msg ttl clock = Ok p ->
     Multi_decrypt {| _fernets := fernets ++ more |} msg ttl clock = Ok p) /\
  (forall g,
     decrypt g msg ttl (clock 0%nat) = Raise InvalidToken ->
     Multi_decrypt {| _fernets := g :: fernets |} msg ttl clock
     = Multi_decrypt {| _fernets := fernets |} msg ttl
         (fun i => clock (S i))).
Proof.
  unfold Multi_decrypt. cbn [_fernets]. split.
  - intros more p. apply first_success_app_Ok.
  - intros g Hg. cbn [first_success]. rewrite Hg.
    cbn [isinstance exn_eqb orb].
    assert (H : forall l i,
      first_success (fun j f => decrypt f msg ttl (clock j)) (S i) l
      = first_success (fun j f => decrypt f msg ttl (clock (S j))) i l).
    { induction l as [|f l IH]; intros i; cbn [first_success]; trivial.
      destruct (decrypt f msg ttl (clock (S i))); trivial.
      destruct (isinstance e InvalidToken); trivial. }
    apply H.
Qed.

(** X15. Rotation is decryption followed by encryption: when the ring
    decrypts the token (ignoring ttl) to [p] and the token carries the
    timestamp [ts], [rotate] returns what the ring's [encrypt_at_time]
    returns for [p] at time [ts] with the same random bytes. *)
Theorem rotate_is_reencrypt {P : Provider} (self : MultiFernet)
  (msg urandom16 : bytes) (clock : nat -> Z) (p : bytes) (ts : Z)
  (data : bytes) :
  Multi_decrypt self msg None clock = Ok p ->
  _get_unverified_token_data msg = Ok (ts, data) ->
  rotate self msg urandom16 = Multi_encrypt_at_time self p ts urandom16.
Proof.
  unfold Multi_decrypt, rotate, Multi_encrypt_at_time. intros Hd Hp.
  rewrite Hp. cbn [bind fst snd].
  rewrite (first_success_ext
             (fun _ f => _decrypt_data f data ts None)
             (fun i f => decrypt f msg None (clock i)) (_fernets self) 0).
  - rewrite Hd. reflexivity.
  - intros j f _. unfold decrypt. now rewrite Hp.
Qed.

Lemma rotate_is_reencrypt_witness :
  rotate ref_ring ref_token ref_iv
  = Multi_encrypt_at_time ref_ring hello 1000 ref_iv.
Proof.
  apply (rotate_is_reencrypt ref_ring ref_token ref_iv (fun _ => 0) hello
           1000 (token_data ref_engine hello 1000 ref_iv)).
  - vm_compute. reflexivity.
  - vm_compute. reflexivity.
Defined.

(** X16. Rotation grants no extra lifetime: under any ttl and clock, the
    first engine and the ring ([decrypt_at_time]) accept the rotated token
    exactly when the original timestamp is neither expired nor future-dated,
    and then return the plaintext of the original. *)
Theorem rotate_no_extra_lifetime {P : Provider} {L : ProviderLaws P}
  (keys : list bytes) (fernets : list Fernet) (self : MultiFernet)
  (msg urandom16 rotated : bytes) (ts : Z) (data : bytes) (ttl now : Z) :
  built_from keys fernets ->
  MultiFernet_init fernets = Ok self ->
  _get_unverified_token_data msg = Ok (ts, data) ->
  rotate self msg urandom16 = Ok rotated ->
  exists f0 p,
    hd_error fernets = Some f0 /\
    (forall clock, Multi_decrypt self msg None clock = Ok p) /\
    extract_timestamp f0 rotated = Ok ts /\
    (ts + ttl < now \/ now + 60 < ts ->
     decrypt f0 rotated (Some ttl) now = Raise InvalidToken /\
     Multi_decrypt_at_time self rotated (Some ttl) now = Raise InvalidToken)
    /\
    (~ (ts + ttl < now \/ now + 60 < ts) ->
     decrypt f0 rotated (Some ttl) now = Ok p /\
     Multi_decrypt_at_time self rotated (Some ttl) now = Ok p).
Proof.
  intros Hb Hi Hp Hr.
  apply MultiFernet_init_Ok in Hi as (Hfs & f0 & rest & ->).
  pose proof (built_from_engine_ok keys _ f0 Hb (or_introl eq_refl)) as Hf.
  unfold rotate, fernets_0, Multi_decrypt, Multi_decrypt_at_time in *.
  rewrite Hp, Hfs in Hr. rewrite Hfs. cbn [bind fst snd] in Hr.
  destruct (first_success (fun _ f => _decrypt_data f data ts None) 0
              (f0 :: rest)) as [p|e] eqn:Hs; [|discriminate].
  cbn [bind] in Hr.
  apply _encrypt_from_parts_inv in Hr as (Hiv & Hts & ->).
  exists f0, p.
  split; [reflexivity|]. split.
  { intros clock. rewrite <- Hs. apply first_success_ext.
    intros j f _. unfold decrypt. now rewrite Hp. }
  split.
  { apply extract_timestamp_Ok
      with (data := token_data f0 p ts urandom16).
    - now apply _get_unverified_token_data_token.
    - apply tag_ok_token_data. }
  assert (Hd : decrypt_at_time f0
                 (b64encode (token_data f0 p ts urandom16)) (Some ttl) now
               = if time_ok ts (Some (ttl, now)) then Ok p
                 else Raise InvalidToken).
  { unfold decrypt_at_time.
    rewrite _get_unverified_token_data_token by trivial.
    cbn [bind fst snd]. now apply _decrypt_data_token. }
  rewrite decrypt_at_time_decrypt in Hd.
  unfold time_ok, _MAX_CLOCK_SKEW in Hd.
  cbn [first_success]. rewrite decrypt_at_time_decrypt.
  split; intros Hv;
    destruct (Z.ltb_spec (ts + ttl) now), (Z.ltb_spec (now + 60) ts);
    cbn [negb andb] in Hd; try lia; rewrite Hd; split; trivial.
  all: cbn [isinstance exn_eqb orb]; apply first_success_all_fail;
    intros j g; rewrite decrypt_at_time_decrypt;
    apply decrypt_time_rejected
      with (ts := ts) (data := token_data f0 p ts urandom16);
    [now apply _get_unverified_token_data_token | lia].
Qed.

Lemma rotate_no_extra_lifetime_witness :
  exists f0 p,
    hd_error [new_engine; ref_engine] = Some f0 /\
    (forall clock, Multi_decrypt ref_ring ref_token None clock = Ok p) /\
    extract_timestamp f0
      (b64encode (token_data new_engine hello 1000 ref_iv)) = Ok 1000 /\
    (1000 + 10 < 1011 \/ 1011 + 60 < 1000 ->
     decrypt f0 (b64encode (token_data new_engine hello 1000 ref_iv))
       (Some 10) 1011 = Raise InvalidToken /\
     Multi_decrypt_at_time ref_ring
       (b64encode (token_data new_engine hello 1000 ref_iv)) (Some 10) 1011
     = Raise InvalidToken) /\
    (~ (1000 + 10 < 1011 \/ 1011 + 60 < 1000) ->
     decrypt f0 (b64encode (token_data new_engine hello 1000 ref_iv))
       (Some 10) 1011 = Ok p /\
     Multi_decrypt_at_time ref_ring
       (b64encode (token_data new_engine hello 1000 ref_iv)) (Some 10) 1011
     = Ok p).
Proof.
  apply (rotate_no_extra_lifetime (L := ref_laws) [new_key; ref_key]
           [new_engine; ref_engine] ref_ring ref_token ref_iv
           (b64encode (token_data new_engine hello 1000 ref_iv)) 1000
           (token_data ref_engine hello 1000 ref_iv) 10 1011
           (Forall2_cons _ _ new_engine_init
              (Forall2_cons _ _ ref_engine_init (Forall2_nil _)))
           eq_refl).
  - vm_compute. reflexivity.
  - vm_compute. reflexivity.
Defined.

(** X17. Rotating a rotated token is rotating the original: with the same
    fresh random bytes both give the same token, so repeated rotation keeps
    the timestamp and the plaintext. *)
Theorem rotate_rotate {P : Provider} {L : ProviderLaws P}
  (keys : list bytes) (fernets : list Fernet) (self : MultiFernet)
  (msg iv iv' rotated : bytes) :
  built_from keys fernets ->
  MultiFernet_init fernets = Ok self ->
  rotate self msg iv = Ok rotated ->
  rotate self rotated iv' = rotate self msg iv'.
Proof.
  intros Hb Hi Hr.
  apply MultiFernet_init_Ok in Hi as (Hfs & f0 & rest & ->).
  pose proof (built_from_engine_ok keys _ f0 Hb (or_introl eq_refl)) as Hf.
  unfold rotate, fernets_0 in *. rewrite Hfs in *.
  destruct (_get_unverified_token_data msg) as [[ts data]|e];
    [|discriminate].
  cbn [bind fst snd] in *.
  destruct (first_success (fun _ f => _decrypt_data f data ts None) 0
              (f0 :: rest)) as [p|e]; [|discriminate].
  cbn [bind] in *.
  apply _encrypt_from_parts_inv in Hr as (Hiv & Hts & ->).
  rewrite _get_unverified_token_data_token by trivial.
  cbn [bind fst snd first_success].
  rewrite _decrypt_data_token by trivial. reflexivity.
Qed.

Lemma rotate_rotate_witness :
  rotate ref_ring (b64encode (token_data new_engine hello 1000 ref_iv))
    (_signing_key ref_engine)
  = rotate ref_ring ref_token (_signing_key ref_engine).
Proof.
  apply (rotate_rotate (L := ref_laws) [new_key; ref_key]
           [new_engine; ref_engine] ref_ring ref_token ref_iv
           (_signing_key ref_engine)
           (b64encode (token_data new_engine hello 1000 ref_iv))
           (Forall2_cons _ _ new_engine_init
              (Forall2_cons _ _ ref_engine_init (Forall2_nil _)))
           eq_refl).
  vm_compute. reflexivity.
Defined.

(** X18. [MultiFernet.__init__] raises [ValueError] exactly on an empty list
    of engines; a ring it built keeps the engines in order, and its
    [encrypt_at_time] is the first engine's, so indexing the first engine
    never fails. *)
Theorem MultiFernet_init_spec {P : Provider} (fernets : list Fernet) :
  (MultiFernet_init fernets = Raise ValueError <-> fernets = []) /\
  (forall e, MultiFernet_init fernets = Raise e -> e = ValueError) /\
  (forall self, MultiFernet_init fernets = Ok self ->
     _fernets self = fernets /\
     exists f0, hd_error fernets = Some f0 /\
       forall msg current_time urandom16,
         Multi_encrypt_at_time self msg current_time urandom16
         = encrypt_at_time f0 msg current_time urandom16 /\
         Multi_encrypt_at_time self msg current_time urandom16
         <> Raise IndexError).
Proof.
  destruct fernets as [|f0 rest]; cbn [MultiFernet_init].
  - split; [tauto|]. split; [now intros e [= <-]|discriminate].
  - split; [split; discriminate|]. split; [discriminate|].
    intros self [= <-]. split; trivial. exists f0. split; trivial.
    intros msg current_time urandom16.
    unfold Multi_encrypt_at_time, fernets_0. cbn [_fernets bind].
    split; trivial.
    unfold encrypt_at_time, _encrypt_from_parts, Cipher_AES_CBC.
    destruct (negb _); [discriminate|].
    destruct (negb _); [discriminate|]. cbn [bind].
    unfold encryptor_finalize.
    destruct (_ =? _)%nat; [|discriminate]. cbn [bind].
    unfold pack_Q. destruct (_ && _); discriminate.
Qed.
